(** * Tic Tac Toe (React front end): engine and controller of [App.js]

    The development follows the source file top to bottom:

    - [Engine]: the pure utilities [getInitialBoard], [checkWinner],
      [getAvailableMoves] and [computerMove], over JavaScript arrays
      (with holes and out-of-range writes written out);
    - [Controller]: the component state of [App], the handlers
      [makeMove], [handleCellClick], [handleRestart], the body of the
      board effect and of its timer callback, each as the list of
      state updates it queues;
    - [Runtime]: one React commit loop around these (batched updates,
      effects re-run when a dependency changed, cleanup before re-run)
      and the events a session can receive. *)

From stdpp Require Import base decidable option list sorting strings.
From Stdlib Require Import Lia.

(** ** JavaScript values held by the board *)

Inductive Mark : Type := X | O.

#[global] Instance Mark_eq_dec : EqDecision Mark.
Proof. solve_decision. Defined.

(** A cell read from the board is [undefined], [null], or one of the two
    strings ["X"] and ["O"]. *)
Inductive jsval : Type :=
  | JUndefined
  | JNull
  | JStr (m : Mark).

#[global] Instance jsval_eq_dec : EqDecision jsval.
Proof. solve_decision. Defined.

(** What [checkWinner] returns and the [winner] state holds:
    [null], a mark, or the string ["draw"]. *)
Inductive outcome : Type :=
  | NoResult
  | Won (m : Mark)
  | DrawGame.

#[global] Instance outcome_eq_dec : EqDecision outcome.
Proof. solve_decision. Defined.

(** An array slot is a value or a hole ([None]); a board is an array. *)
Abbreviation slot := (option jsval).
Abbreviation Board := (list (option jsval)).

Module Engine.

(** [if (v)]: only the non-empty strings are truthy here. *)
Definition truthy (v : jsval) : bool :=
  match v with JStr _ => true | _ => false end.

(** [v == null]: true of [null] and of [undefined]. *)
Definition loose_null (v : jsval) : bool :=
  match v with JStr _ => false | _ => true end.

(** [v === w]. *)
Definition strict_eq (v w : jsval) : bool := bool_decide (v = w).

(** [board[i]]: a hole and an index past the end both read [undefined]. *)
Definition get (b : Board) (i : nat) : jsval :=
  match b !! i with
  | Some (Some v) => v
  | _ => JUndefined
  end.

(** [b[i] = v]: in range the slot is overwritten; past the end the array
    grows, the slots in between being holes. *)
Definition array_set (b : Board) (i : nat) (v : jsval) : Board :=
  if decide (i < length b) then <[i := Some v]> b
  else b ++ replicate (i - length b) None ++ [Some v].

(** [[...b]]: the iterator reads every index, so holes become
    [undefined]. *)
Definition spread (b : Board) : Board :=
  map (fun s : slot => Some (default JUndefined s)) b.

(** [Array(9).fill(null)]. *)
Definition getInitialBoard : Board := replicate 9 (Some JNull).

Definition lines : list (nat * nat * nat) :=
  [ (0, 1, 2); (3, 4, 5); (6, 7, 8);
    (0, 3, 6); (1, 4, 7); (2, 5, 8);
    (0, 4, 8); (2, 4, 6) ].

(** The [for (let arr of lines)] loop of [checkWinner]: the mark returned
    from inside the loop, if any. *)
Fixpoint scan_lines (b : Board) (ls : list (nat * nat * nat)) : option Mark :=
  match ls with
  | [] => None
  | (a, b', c) :: rest =>
      match get b a with
      | JStr m =>
          if strict_eq (get b a) (get b b') && strict_eq (get b a) (get b c)
          then Some m
          else scan_lines b rest
      | _ => scan_lines b rest
      end
  end.

(** [board.every((cell) => cell)]: [every] does not visit holes. *)
Definition every_truthy (b : Board) : bool :=
  forallb (fun s : slot => match s with None => true | Some v => truthy v end) b.

Definition checkWinner (b : Board) : outcome :=
  match scan_lines b lines with
  | Some m => Won m
  | None => if every_truthy b then DrawGame else NoResult
  end.

(** [board.map((cell, idx) => cell === null ? idx : null)]: holes stay
    holes (outer [None]); the inner [None] is the [null] of the source. *)
Definition mark_empty (b : Board) : list (option (option nat)) :=
  imap (fun idx (s : slot) =>
          match s with
          | None => None
          | Some cell => Some (if strict_eq cell JNull then Some idx else None)
          end) b.

(** [.filter((idx) => idx !== null)]: holes are skipped. *)
Definition drop_null (l : list (option (option nat))) : list nat :=
  omap (fun s : option (option nat) =>
          match s with Some (Some idx) => Some idx | _ => None end) l.

Definition getAvailableMoves (b : Board) : list nat :=
  drop_null (mark_empty b).

(** One of the two [for (let idx of getAvailableMoves(board))] loops of
    [computerMove]: the first index at which placing [mark] on a copy
    makes [checkWinner] return [mark]. *)
Fixpoint try_moves (b : Board) (mark : Mark) (idxs : list nat) : option nat :=
  match idxs with
  | [] => None
  | idx :: rest =>
      let copy := array_set (spread b) idx (JStr mark) in
      if bool_decide (checkWinner copy = Won mark) then Some idx
      else try_moves b mark rest
  end.

(** [Math.floor(Math.random() * n)] is some integer of [0, n) when
    [0 < n]; the draw is the argument [seed], any natural number. *)
Definition random_index (seed n : nat) : nat := seed mod n.

(** The result is an index or [null] ([None]). *)
Definition computerMove (seed : nat) (b : Board) (aiMark humanMark : Mark)
  : option nat :=
  match try_moves b aiMark (getAvailableMoves b) with
  | Some idx => Some idx
  | None =>
      match try_moves b humanMark (getAvailableMoves b) with
      | Some idx => Some idx
      | None =>
          if loose_null (get b 4) then Some 4
          else
            let corners :=
              List.filter (fun i => loose_null (get b i)) [0; 2; 6; 8] in
            if decide (0 < length corners)
            then corners !! random_index seed (length corners)
            else
              let available := getAvailableMoves b in
              if decide (length available = 0) then None
              else available !! random_index seed (length available)
      end
  end.

End Engine.

(** ** The component [App]: state, handlers, effect *)

Module Controller.
Import Engine.

(** [MODES.SINGLE] and [MODES.TWO], the two values of the selector. *)
Inductive Mode : Type := SINGLE | TWO.

#[global] Instance Mode_eq_dec : EqDecision Mode.
Proof. solve_decision. Defined.

(** The five [useState] cells of [App]. *)
Record State : Type := mkState {
  mode : Mode;
  board : Board;
  isXTurn : bool;
  winner : outcome;
  gameActive : bool
}.

#[global] Instance State_eq_dec : EqDecision State.
Proof. solve_decision. Defined.

(** A queued state update: a call of one of the five setters.
    [ToggleIsXTurn] is [setIsXTurn((prev) => !prev)], which reads the
    state at the time the queue is processed, not the one of the
    closure. *)
Inductive Update : Type :=
  | SetMode (m : Mode)
  | SetBoard (b : Board)
  | SetIsXTurn (v : bool)
  | ToggleIsXTurn
  | SetWinner (o : outcome)
  | SetGameActive (v : bool).

Definition apply_update (s : State) (u : Update) : State :=
  match u with
  | SetMode m => mkState m (board s) (isXTurn s) (winner s) (gameActive s)
  | SetBoard b => mkState (mode s) b (isXTurn s) (winner s) (gameActive s)
  | SetIsXTurn v => mkState (mode s) (board s) v (winner s) (gameActive s)
  | ToggleIsXTurn =>
      mkState (mode s) (board s) (negb (isXTurn s)) (winner s) (gameActive s)
  | SetWinner o => mkState (mode s) (board s) (isXTurn s) o (gameActive s)
  | SetGameActive v => mkState (mode s) (board s) (isXTurn s) (winner s) v
  end.

(** The queue is processed in order. *)
Definition apply_updates (us : list Update) (s : State) : State :=
  fold_left apply_update us s.

(** The state of the first render: the [useState] initial values. *)
Definition initialState : State :=
  mkState SINGLE getInitialBoard true NoResult true.

(** The mark the closure of render [r] writes: [isXTurn ? "X" : "O"]. *)
Definition activeMark (r : State) : Mark := if isXTurn r then X else O.

(** [makeMove(idx)] in the closure of render [r]: the updates it queues. *)
Definition makeMove (r : State) (idx : nat) : list Update :=
  if negb (gameActive r) || truthy (get (board r) idx) then []
  else
    let next := array_set (spread (board r)) idx (JStr (activeMark r)) in
    [SetBoard next; ToggleIsXTurn].

(** [handleCellClick(idx)] in the closure of render [r]. *)
Definition handleCellClick (r : State) (idx : nat) : list Update :=
  match mode r with
  | SINGLE =>
      if negb (isXTurn r) || negb (loose_null (get (board r) idx)) then []
      else makeMove r idx
  | TWO =>
      if negb (loose_null (get (board r) idx)) then []
      else makeMove r idx
  end.

(** [handleRestart()] reads no state. *)
Definition handleRestart : list Update :=
  [SetBoard getInitialBoard; SetIsXTurn true; SetWinner NoResult;
   SetGameActive true].

(** [res === null]. *)
Definition is_null (o : outcome) : bool :=
  match o with NoResult => true | _ => false end.

(** The effect with dependencies [board, isXTurn, mode], run in render
    [r]: the updates it queues, and whether it arms the 400 ms timer
    (then also returning the cleanup that clears it).  The timer's
    callback keeps the closure of render [r]. *)
Definition boardEffect (r : State) : list Update * option State :=
  let res := checkWinner (board r) in
  ([SetWinner res; SetGameActive (is_null res)],
   if bool_decide (mode r = SINGLE) && negb (isXTurn r) && is_null res
   then Some r else None).

(** The timer callback, in the closure of render [r]. *)
Definition aiCallback (seed : nat) (r : State) : list Update :=
  match computerMove seed (board r) O X with
  | Some idx =>
      if loose_null (get (board r) idx) then makeMove r idx else []
  | None => []
  end.

End Controller.

(** ** React around the component *)

Module Runtime.
Import Engine Controller.

(** A session between two events: the committed state, and the closure
    of the armed timer, if one is pending. *)
Record World : Type := mkWorld {
  st : State;
  pending : option State
}.

Definition sets_board (u : Update) : bool :=
  match u with SetBoard _ => true | _ => false end.

(** Every [setBoard] of the source passes a freshly built array, so a
    queue holding one always changes the [board] dependency. *)
Definition board_replaced (us : list Update) : bool := existsb sets_board us.

(** One commit after another until no update is left.  [prev] is the
    state of the last render, [us] the updates queued since, [p] the
    pending timer.  If the queue changes nothing there is no render.
    Otherwise the component renders with the new state [cur], and the
    two [useEffect] calls of [App] are considered in source order:
    - the one with dependencies [[mode]] calls [handleRestart];
    - the one with dependencies [[board, isXTurn, mode]] first runs the
      cleanup its previous run returned ([clearTimeout]: the pending
      timer is dropped), then its body [boardEffect].
    An effect whose dependencies did not change is skipped, and a
    pending timer then stays.  The updates the effects queue are
    committed in turn. *)
Fixpoint commit (fuel : nat) (prev : State) (us : list Update)
  (p : option State) : option World :=
  match fuel with
  | 0 => None
  | S fuel' =>
      let cur := apply_updates us prev in
      if negb (board_replaced us) && bool_decide (cur = prev)
      then Some (mkWorld cur p)
      else
        let mode_changed := negb (bool_decide (mode cur = mode prev)) in
        let deps_changed :=
          board_replaced us
          || negb (bool_decide (isXTurn cur = isXTurn prev))
          || mode_changed in
        let us1 := if mode_changed then handleRestart else [] in
        let '(us2, p') :=
          if deps_changed then boardEffect cur else ([], p) in
        commit fuel' cur (us1 ++ us2) p'
  end.

Inductive Event : Type :=
  | Click (idx : nat)          (* a cell button *)
  | Restart                    (* the restart button *)
  | ChangeMode (m : Mode)      (* the selector's [onChange] *)
  | Fire (seed : nat).         (* the timer elapses *)

Definition render_budget : nat := 4.

(** Events are taken one at a time, each once the renders and effects
    of the previous one are done.  An event runs its handler in the
    closure of the last render (the timer callback in the closure that
    armed it, the timer then being spent) and commits. *)
Definition step (w : World) (e : Event) : option World :=
  match e with
  | Click idx =>
      commit render_budget (st w) (handleCellClick (st w) idx) (pending w)
  | Restart => commit render_budget (st w) handleRestart (pending w)
  | ChangeMode m => commit render_budget (st w) [SetMode m] (pending w)
  | Fire seed =>
      match pending w with
      | None => Some w
      | Some r => commit render_budget (st w) (aiCallback seed r) None
      end
  end.

(** Mounting: both effects run after the first render. *)
Definition mount : option World :=
  commit render_budget initialState
    (handleRestart ++ fst (boardEffect initialState))
    (snd (boardEffect initialState)).

Definition initialWorld : World := mkWorld initialState None.

Fixpoint run (w : World) (es : list Event) : option World :=
  match es with
  | [] => Some w
  | e :: es' =>
      match step w e with
      | Some w' => run w' es'
      | None => None
      end
  end.

End Runtime.

(** ** Vocabulary of the properties *)

Module Props.
Import Engine Controller Runtime.

(** A cell of a well-formed board is [null] or a mark. *)
Definition wf_slot (s : slot) : Prop :=
  match s with
  | Some JNull | Some (JStr _) => True
  | _ => False
  end.

(** The boards of the game: nine cells, each empty or marked. *)
Definition wf_board (b : Board) : Prop :=
  length b = 9 /\ Forall wf_slot b.

(** The three cells of line [l] all hold the mark [m]. *)
Definition completed (b : Board) (l : nat * nat * nat) (m : Mark) : Prop :=
  let '(i, j, k) := l in
  get b i = JStr m /\ get b j = JStr m /\ get b k = JStr m.

(** Cell [i] of the board is empty. *)
Definition empty_at (b : Board) (i : nat) : Prop := b !! i = Some (Some JNull).

(** Putting mark [m] on cell [i]. *)
Definition place (b : Board) (i : nat) (m : Mark) : Board :=
  <[i := Some (JStr m)]> b.

(** Playing [m] on the empty cell [i] makes [m] the winner. *)
Definition wins_at (b : Board) (m : Mark) (i : nat) : Prop :=
  empty_at b i /\ checkWinner (place b i m) = Won m.

Definition least (P : nat -> Prop) (i : nat) : Prop :=
  P i /\ forall j, j < i -> ~ P j.

(** Number of cells holding the mark [m]. *)
Definition count_mark (m : Mark) (b : Board) : nat :=
  length (List.filter (fun s : slot => bool_decide (s = Some (JStr m))) b).

(** As many X as O when X is to move, one X more when O is to move. *)
Definition balanced (s : State) : Prop :=
  count_mark X (board s) =
  count_mark O (board s) + (if isXTurn s then 0 else 1).

(** Sessions obtained from the first render by calls of [makeMove] and
    [handleRestart] in the current closure, with the board effect run
    or not in between. *)
Inductive session_reachable : State -> Prop :=
  | reach_init : session_reachable initialState
  | reach_move s idx :
      session_reachable s ->
      session_reachable (apply_updates (makeMove s idx) s)
  | reach_restart s :
      session_reachable s ->
      session_reachable (apply_updates handleRestart s)
  | reach_effect s :
      session_reachable s ->
      session_reachable (apply_updates (fst (boardEffect s)) s).

(** Worlds obtained from the mounted component by events. *)
Definition world_reachable (w : World) : Prop :=
  exists es, run initialWorld es = Some w.

(** The session is waiting for the computer: single-player mode, O to
    move, no result yet. *)
Definition expects_computer (s : State) : Prop :=
  mode s = SINGLE /\ isXTurn s = false /\ checkWinner (board s) = NoResult.

(** A pending timer was armed by a render whose board, turn and mode are
    still the current ones. *)
Definition timer_fresh (w : World) : Prop :=
  forall r, pending w = Some r ->
    board r = board (st w) /\ isXTurn r = isXTurn (st w) /\
    mode r = mode (st w) /\ expects_computer r.

(** The world once the board effect has run in a render with state [s]
    and its two updates are committed. *)
Definition settled (s : State) : World :=
  mkWorld (apply_updates (fst (boardEffect s)) s) (snd (boardEffect s)).

(** The state [handleRestart] leaves, the mode being [m]. *)
Definition freshState (m : Mode) : State :=
  mkState m (replicate 9 (Some JNull)) true NoResult true.

(** The empty cells of [b] in ascending order, the first cell having
    index [k]. *)
Fixpoint empties_from (k : nat) (b : Board) : list nat :=
  match b with
  | [] => []
  | s :: b' =>
      if bool_decide (s = Some JNull) then k :: empties_from (S k) b'
      else empties_from (S k) b'
  end.

End Props.

(** ** Boards and sessions used as examples *)

Module Scenarios.
Import Engine Controller Runtime.

(** The scenario of the specification: a full board without a line. *)
Definition drawn_board : Board :=
  [Some (JStr X); Some (JStr O); Some (JStr X);
   Some (JStr X); Some (JStr O); Some (JStr O);
   Some (JStr O); Some (JStr X); Some (JStr X)].

(** Two rows are complete, for different marks. *)
Definition two_rows_board : Board :=
  [Some (JStr O); Some (JStr X); Some JNull;
   Some (JStr X); Some (JStr X); Some (JStr X);
   Some (JStr O); Some (JStr O); Some (JStr O)].

(** [[X, X, _, O, O, _, _, _, _]], the computer being O. *)
Definition scenario_board : Board :=
  [Some (JStr X); Some (JStr X); Some JNull;
   Some (JStr O); Some (JStr O); Some JNull;
   Some JNull; Some JNull; Some JNull].

(** [[X, X, _, O, _, _, _, _, _]]: O cannot win at once, X threatens. *)
Definition threat_board : Board :=
  [Some (JStr X); Some (JStr X); Some JNull;
   Some (JStr O); Some JNull; Some JNull;
   Some JNull; Some JNull; Some JNull].

(** Only the centre is taken: the move comes from the random corner
    tier. *)
Definition corner_board : Board :=
  [Some JNull; Some JNull; Some JNull;
   Some JNull; Some (JStr X); Some JNull;
   Some JNull; Some JNull; Some JNull].

(** A two-player session that X has won on the top row. *)
Definition finished_world : World :=
  mkWorld
    (mkState TWO
       [Some (JStr X); Some (JStr X); Some (JStr X);
        Some (JStr O); Some (JStr O); Some JNull;
        Some JNull; Some JNull; Some JNull]
       false (Won X) false)
    None.

(** The first single-player session after the human has played the
    centre: the timer of the computer's reply is pending. *)
Definition waiting_state : State :=
  mkState SINGLE
    [Some JNull; Some JNull; Some JNull;
     Some JNull; Some (JStr X); Some JNull;
     Some JNull; Some JNull; Some JNull]
    false NoResult true.

Definition waiting_world : World := mkWorld waiting_state (Some waiting_state).

End Scenarios.

(** ** What [App] renders: the board's buttons, the panel *)

Module View.
Import Engine Controller Runtime.

(** [!!winner]: the strings ["X"], ["O"] and ["draw"] are truthy. *)
Definition gameOver (r : State) : bool := negb (is_null (winner r)).

(** [Board] renders one button per index that [board.map] visits: the
    indices below the length that are not holes. *)
Definition buttonRendered (r : State) (idx : nat) : bool :=
  match board r !! idx with
  | Some (Some _) => true
  | _ => false
  end.

(** [disabled={cell || gameOver}] of the button of cell [idx]. *)
Definition buttonDisabled (r : State) (idx : nat) : bool :=
  truthy (get (board r) idx) || gameOver r.

(** [canSwitchMode={board.every((cell) => cell == null) || !!winner}];
    the selector is [disabled={!canSwitchMode}]. *)
Definition canSwitchMode (r : State) : bool :=
  forallb (fun s : slot =>
             match s with None => true | Some v => loose_null v end) (board r)
  || gameOver r.

(** [showTurn = !winner]. *)
Definition showTurn (r : State) : bool := is_null (winner r).

Definition currentPlayer (r : State) : string :=
  match mode r with
  | SINGLE => if isXTurn r then "You (X)" else "Computer (O)"
  | TWO => if isXTurn r then "Player X" else "Player O"
  end.

Definition mark_text (m : Mark) : string :=
  match m with X => "X" | O => "O" end.

(** The [message] of [ControlPanel]. *)
Definition message (winner : outcome) (showTurn : bool)
  (currentPlayer : string) : string :=
  match winner with
  | DrawGame => "It's a Draw! 😮"
  | Won m => String.append "Winner: " (String.append (mark_text m) " 🎉")
  | NoResult =>
      if showTurn then String.append "Turn: " currentPlayer else ""
  end.

(** The message of the panel as [App] renders it. *)
Definition announcement (r : State) : string :=
  message (winner r) (showTurn r) (currentPlayer r).

(** The events the rendered page can deliver: a click comes from a
    rendered button that is not disabled, a change of mode from the
    selector when it is not disabled; the restart button is always
    there, and the timer is the runtime's. *)
Definition ui_enabled (r : State) (e : Event) : bool :=
  match e with
  | Click idx => buttonRendered r idx && negb (buttonDisabled r idx)
  | ChangeMode _ => canSwitchMode r
  | Restart => true
  | Fire _ => true
  end.

Fixpoint ui_run (w : World) (es : list Event) : option World :=
  match es with
  | [] => Some w
  | e :: es' =>
      if ui_enabled (st w) e then
        match step w e with
        | Some w' => ui_run w' es'
        | None => None
        end
      else None
  end.

End View.

(** ** Vocabulary of the further properties *)

Module Conduct.
Import Engine Controller Runtime Props View.

(** Worlds the page can be brought to from the mounted component. *)
Definition ui_reachable (w : World) : Prop :=
  exists es, ui_run initialWorld es = Some w.

(** The stored result is the one of the stored board, and the session
    is active exactly while there is none. *)
Definition consistent (s : State) : Prop :=
  winner s = checkWinner (board s) /\ gameActive s = is_null (winner s).

(** The closure of a pending timer was taken on an active session. *)
Definition timer_live (w : World) : Prop :=
  forall r, pending w = Some r -> gameActive r = true.

(** What holds of every world the page can be brought to. *)
Definition page_invariant (w : World) : Prop :=
  wf_board (board (st w)) /\ consistent (st w) /\ timer_fresh w /\
  timer_live w /\ (expects_computer (st w) -> pending w <> None).

(** A move: a click or the firing of the timer. *)
Definition is_move (e : Event) : bool :=
  match e with Click _ | Fire _ => true | _ => false end.

Definition corners : list nat := [0; 2; 6; 8].
Definition edges : list nat := [1; 3; 5; 7].

(** No cell wins at once for mark [m]. *)
Definition no_win (b : Board) (m : Mark) : Prop := forall i, ~ wins_at b m i.

(** After X at 0, O at 4, X at 1, O at 2 and X at 3, in single-player
    mode: O to move, the timer pending, and cell 6 wins for O. *)
Definition chance_state : State :=
  mkState SINGLE
    [Some (JStr X); Some (JStr X); Some (JStr O);
     Some (JStr X); Some (JStr O); Some JNull;
     Some JNull; Some JNull; Some JNull]
    false NoResult true.

Definition chance_world : World := mkWorld chance_state (Some chance_state).

(** A finished two-player game reached by play: X won on the top
    row. *)
Definition finished_run : World :=
  mkWorld
    (mkState TWO
       [Some (JStr X); Some (JStr X); Some (JStr X);
        Some (JStr O); Some (JStr O); Some JNull;
        Some JNull; Some JNull; Some JNull]
       false (Won X) false)
    None.

End Conduct.

(** ** The engine *)

Module EngineFacts.
Import Engine Props.

Lemma strict_eq_true v w : strict_eq v w = true <-> v = w.
Proof. unfold strict_eq. rewrite bool_decide_eq_true. reflexivity. Qed.

Lemma line_test b i j k m :
  get b i = JStr m ->
  strict_eq (get b i) (get b j) && strict_eq (get b i) (get b k) = true
  <-> completed b (i, j, k) m.
Proof.
  intros Hi. rewrite andb_true_iff, !strict_eq_true. simpl.
  rewrite Hi. split.
  - intros [<- <-]. auto.
  - intros (_ & -> & ->). auto.
Qed.

Lemma completed_first b i j k m : completed b (i, j, k) m -> get b i = JStr m.
Proof. intros (H & _). exact H. Qed.

(** The loop stops at the first completed line. *)
Lemma scan_lines_first b pre l post m :
  (forall l' m', l' ∈ pre -> ~ completed b l' m') ->
  completed b l m ->
  scan_lines b (pre ++ l :: post) = Some m.
Proof.
  induction pre as [|[[i j] k] pre IH]; intros Hpre Hl; simpl.
  - destruct l as [[i j] k]. pose proof (completed_first _ _ _ _ _ Hl) as Hi.
    rewrite Hi. rewrite <- Hi at 1 2.
    apply (line_test b i j k m Hi) in Hl. rewrite Hl. reflexivity.
  - assert (IH' : scan_lines b (pre ++ l :: post) = Some m).
    { apply IH; [|exact Hl]. intros l' m' Hin. apply Hpre. by right. }
    destruct (get b i) as [| |m0] eqn:Hi; try exact IH'.
    destruct (strict_eq (JStr m0) (get b j) && strict_eq (JStr m0) (get b k))
      eqn:Ht; [|exact IH'].
    exfalso. apply (Hpre (i, j, k) m0); [by left|].
    apply (line_test b i j k m0 Hi). rewrite Hi. exact Ht.
Qed.

Lemma scan_lines_none b ls :
  (forall l m, l ∈ ls -> ~ completed b l m) -> scan_lines b ls = None.
Proof.
  induction ls as [|[[i j] k] ls IH]; intros H; simpl; [reflexivity|].
  assert (IH' : scan_lines b ls = None).
  { apply IH. intros l m Hin. apply H. by right. }
  destruct (get b i) as [| |m0] eqn:Hi; try exact IH'.
  destruct (strict_eq (JStr m0) (get b j) && strict_eq (JStr m0) (get b k))
    eqn:Ht; [|exact IH'].
  exfalso. apply (H (i, j, k) m0); [by left|].
  apply (line_test b i j k m0 Hi). rewrite Hi. exact Ht.
Qed.

Lemma scan_lines_some b ls m :
  scan_lines b ls = Some m -> exists l, l ∈ ls /\ completed b l m.
Proof.
  induction ls as [|[[i j] k] ls IH]; simpl; [discriminate|].
  intros H.
  assert (Hrec : scan_lines b ls = Some m ->
                 exists l, l ∈ (i, j, k) :: ls /\ completed b l m).
  { intros Hs. destruct (IH Hs) as (l & Hin & Hc). exists l. split; [by right|done]. }
  destruct (get b i) as [| |m0] eqn:Hi; try (apply Hrec; exact H).
  destruct (strict_eq (JStr m0) (get b j) && strict_eq (JStr m0) (get b k))
    eqn:Ht; [|apply Hrec; exact H].
  injection H as <-. exists (i, j, k). split; [by left|].
  apply (line_test b i j k m0 Hi). rewrite Hi. exact Ht.
Qed.

Lemma get_cons_0 s (b : Board) : get (s :: b) 0 = default JUndefined s.
Proof. unfold get. simpl. by destruct s. Qed.

Lemma get_cons_S s (b : Board) i : get (s :: b) (S i) = get b i.
Proof. reflexivity. Qed.

Lemma empty_at_get (b : Board) i : empty_at b i -> get b i = JNull.
Proof. unfold empty_at, get. by intros ->. Qed.

Lemma empty_at_lt (b : Board) i : empty_at b i -> i < length b.
Proof. unfold empty_at. intros H. by apply lookup_lt_Some in H. Qed.

(** On hole-free arrays of [null]s and marks, [every] finds all cells
    truthy exactly when none is empty. *)
Lemma every_truthy_iff (b : Board) :
  Forall wf_slot b ->
  every_truthy b = true <-> forall i, ~ empty_at b i.
Proof.
  induction 1 as [|s b Hs Hb IH]; simpl.
  - split; [|done]. intros _ i. unfold empty_at. by rewrite lookup_nil.
  - rewrite andb_true_iff, IH. split.
    + intros [Hh Ht] [|i]; unfold empty_at; simpl.
      * intros [= ->]. discriminate.
      * apply Ht.
    + intros H. split.
      * destruct s as [[| |m]|]; try done.
        exfalso. by apply (H 0).
      * intros i. apply (H (S i)).
Qed.

Lemma wf_slot_lookup (b : Board) i s :
  Forall wf_slot b -> b !! i = Some s -> wf_slot s.
Proof. intros Hb Hi. by eapply Forall_lookup_1 in Hb. Qed.

Lemma wf_board_cell (b : Board) i :
  wf_board b -> i < 9 -> empty_at b i \/ exists m, b !! i = Some (Some (JStr m)).
Proof.
  intros [Hlen Hb] Hi.
  destruct (lookup_lt_is_Some_2 b i) as [s Hs]; [lia|].
  pose proof (wf_slot_lookup _ _ _ Hb Hs) as Hw.
  destruct s as [[| |m]|]; try done; [by left|right; eauto].
Qed.

Lemma get_spread (b : Board) j : get (spread b) j = get b j.
Proof.
  unfold get, spread. rewrite list_lookup_fmap.
  by destruct (b !! j) as [[v|]|].
Qed.

Lemma length_spread (b : Board) : length (spread b) = length b.
Proof. unfold spread. apply length_map. Qed.

Lemma get_ge (b : Board) j : length b <= j -> get b j = JUndefined.
Proof. intros H. unfold get. by rewrite lookup_ge_None_2. Qed.

(** Reading back the cell just written, in range or past the end. *)
Lemma get_array_set_eq (b : Board) i v : get (array_set b i v) i = v.
Proof.
  unfold get, array_set. case_decide as Hi.
  - by rewrite list_lookup_insert_eq.
  - rewrite lookup_app_r by lia. rewrite lookup_app_r; rewrite length_replicate; [|lia].
    by rewrite Nat.sub_diag.
Qed.

(** Every other index reads as before. *)
Lemma get_array_set_ne (b : Board) i j v :
  i <> j -> get (array_set b i v) j = get b j.
Proof.
  intros Hne. unfold array_set. case_decide as Hi.
  - unfold get. by rewrite list_lookup_insert_ne.
  - destruct (decide (j < length b)) as [Hj|Hj].
    + unfold get. by rewrite lookup_app_l.
    + rewrite (get_ge b j) by lia. unfold get.
      rewrite lookup_app_r by lia.
      destruct (decide (j < i)) as [Hji|Hji].
      * rewrite lookup_app_l by (rewrite length_replicate; lia).
        rewrite lookup_replicate_2 by lia. reflexivity.
      * rewrite lookup_app_r by (rewrite length_replicate; lia).
        rewrite length_replicate.
        replace (j - length b - (i - length b)) with (S (j - i - 1)) by lia.
        reflexivity.
Qed.

Lemma length_array_set_lt (b : Board) i v :
  i < length b -> length (array_set b i v) = length b.
Proof.
  intros Hi. unfold array_set. case_decide; [|lia]. apply length_insert.
Qed.

Lemma spread_wf (b : Board) : Forall wf_slot b -> spread b = b.
Proof.
  induction 1 as [|s b Hs Hb IH]; [reflexivity|].
  unfold spread in *. simpl. rewrite IH. by destruct s.
Qed.

(** The hypothetical move of [computerMove] on a game board is [place]. *)
Lemma copy_is_place (b : Board) i m :
  Forall wf_slot b -> i < length b ->
  array_set (spread b) i (JStr m) = place b i m.
Proof.
  intros Hb Hi. rewrite (spread_wf b Hb). unfold array_set, place.
  destruct (decide (i < length b)); [reflexivity|lia].
Qed.

Lemma mark_empty_shift (k : nat) (b : Board) :
  drop_null
    (imap (fun idx (s : slot) =>
             match s with
             | None => None
             | Some cell =>
                 Some (if strict_eq cell JNull then Some (k + idx) else None)
             end) b)
  = empties_from k b.
Proof.
  revert k. induction b as [|s b IH]; intros k; [reflexivity|].
  rewrite imap_cons.
  assert (Htail :
    drop_null
      (imap ((fun idx (s0 : slot) =>
               match s0 with
               | None => None
               | Some cell =>
                   Some (if strict_eq cell JNull then Some (k + idx) else None)
               end) ∘ S) b) = empties_from (S k) b).
  { rewrite <- IH. f_equal. apply imap_ext. intros i x _. simpl.
    by rewrite Nat.add_succ_r. }
  destruct s as [[| |m]|]; simpl; rewrite ?Nat.add_0_r; by rewrite Htail.
Qed.

Lemma getAvailableMoves_empties (b : Board) :
  getAvailableMoves b = empties_from 0 b.
Proof. unfold getAvailableMoves, mark_empty. apply (mark_empty_shift 0 b). Qed.

Lemma elem_of_empties_from (k : nat) (b : Board) i :
  i ∈ empties_from k b <-> k <= i /\ empty_at b (i - k).
Proof.
  revert k. induction b as [|s b IH]; intros k; simpl.
  - rewrite elem_of_nil. unfold empty_at. rewrite lookup_nil.
    split; [done|]. intros [_ ?]. discriminate.
  - assert (Hrec : i ∈ empties_from (S k) b <-> k < i /\ empty_at (s :: b) (i - k)).
    { rewrite IH. unfold empty_at. split.
      - intros [Hle H]. split; [lia|].
        replace (i - k) with (S (i - S k)) by lia. exact H.
      - intros [Hlt H]. split; [lia|].
        replace (i - k) with (S (i - S k)) in H by lia. exact H. }
    case_bool_decide as Hs.
    + rewrite elem_of_cons, Hrec. unfold empty_at. split.
      * intros [->|[? ?]]; [|split; [lia|done]].
        split; [lia|]. rewrite Nat.sub_diag. simpl. by rewrite Hs.
      * intros [Hle H]. destruct (decide (i = k)) as [->|Hne]; [by left|].
        right. split; [lia|done].
    + rewrite Hrec. unfold empty_at. split.
      * intros [? ?]. split; [lia|done].
      * intros [Hle H]. split; [|done].
        destruct (decide (i = k)) as [->|Hne]; [|lia].
        rewrite Nat.sub_diag in H. simpl in H. congruence.
Qed.

Lemma elem_of_getAvailableMoves (b : Board) i :
  i ∈ getAvailableMoves b <-> empty_at b i.
Proof.
  rewrite getAvailableMoves_empties, elem_of_empties_from, Nat.sub_0_r.
  split; [by intros [_ ?]|]. intros H. split; [lia|done].
Qed.

Lemma empties_from_sorted (k : nat) (b : Board) :
  StronglySorted lt (empties_from k b).
Proof.
  revert k. induction b as [|s b IH]; intros k; simpl; [constructor|].
  case_bool_decide; [|apply IH].
  constructor; [apply IH|].
  apply Forall_forall. intros j Hj.
  apply elem_of_empties_from in Hj. lia.
Qed.

(** [getAvailableMoves] lists the empty cells in ascending order: a cell
    listed before another has the smaller index. *)
Lemma getAvailableMoves_split (b : Board) pre i post j :
  getAvailableMoves b = pre ++ i :: post ->
  empty_at b j -> j < i -> j ∈ pre.
Proof.
  intros Hsplit Hj Hlt.
  pose proof (empties_from_sorted 0 b) as Hs.
  rewrite <- getAvailableMoves_empties, Hsplit in Hs.
  apply elem_of_getAvailableMoves in Hj. rewrite Hsplit in Hj.
  apply elem_of_app in Hj as [Hj|Hj]; [done|].
  apply StronglySorted_app_1_r in Hs.
  apply StronglySorted_inv in Hs as [_ Hall].
  apply elem_of_cons in Hj as [->|Hj]; [lia|].
  rewrite Forall_forall in Hall. apply Hall in Hj. lia.
Qed.

(** Each of the two search loops returns the first listed index whose
    hypothetical move wins, and [None] when there is none. *)
Lemma try_moves_some (b : Board) (mark : Mark) idxs i :
  try_moves b mark idxs = Some i ->
  exists pre post,
    idxs = pre ++ i :: post /\
    checkWinner (array_set (spread b) i (JStr mark)) = Won mark /\
    forall j, j ∈ pre ->
      checkWinner (array_set (spread b) j (JStr mark)) <> Won mark.
Proof.
  induction idxs as [|x idxs IH]; simpl; [discriminate|].
  case_bool_decide as Hx.
  - intros [= <-]. exists [], idxs. split; [reflexivity|]. split; [done|].
    intros j Hj. by apply elem_of_nil in Hj.
  - intros H. destruct (IH H) as (pre & post & -> & Hi & Hpre).
    exists (x :: pre), post. split; [reflexivity|]. split; [done|].
    intros j Hj. apply elem_of_cons in Hj as [->|Hj]; [done|by apply Hpre].
Qed.

Lemma try_moves_none (b : Board) (mark : Mark) idxs :
  try_moves b mark idxs = None <->
  forall j, j ∈ idxs ->
    checkWinner (array_set (spread b) j (JStr mark)) <> Won mark.
Proof.
  induction idxs as [|x idxs IH]; simpl.
  - split; [|done]. intros _ j Hj. by apply elem_of_nil in Hj.
  - case_bool_decide as Hx.
    + split; [discriminate|]. intros H. exfalso. apply (H x); [by left|done].
    + rewrite IH. split.
      * intros H j Hj. apply elem_of_cons in Hj as [->|Hj]; [done|by apply H].
      * intros H j Hj. apply H. by right.
Qed.

End EngineFacts.

(** ** [checkWinner] *)

Module CheckWinner.
Import Engine Props Scenarios EngineFacts.

Ltac each_line H :=
  unfold lines in H;
  repeat (apply elem_of_cons in H; destruct H as [->|H]);
  [..|by apply elem_of_nil in H].

Ltac no_line :=
  let l := fresh "l" in let m := fresh "m" in let H := fresh "H" in
  intros l m H; each_line H; destruct m;
  (intros (? & ? & ?); discriminate).

(** C1: on a nine-cell board of empty and marked cells on which no line
    is completed, [checkWinner] returns ["draw"] when no cell is empty,
    and [null] when some cell is empty. *)
Theorem checkWinner_without_line (b : Board) :
  wf_board b ->
  (forall l m, l ∈ lines -> ~ completed b l m) ->
  ((forall i, ~ empty_at b i) -> checkWinner b = DrawGame) /\
  ((exists i, empty_at b i) -> checkWinner b = NoResult).
Proof.
  intros [_ Hb] Hno. unfold checkWinner.
  rewrite (scan_lines_none b lines Hno).
  pose proof (every_truthy_iff b Hb) as Hev.
  split.
  - intros Hfull. apply Hev in Hfull. by rewrite Hfull.
  - intros [i Hi]. destruct (every_truthy b) eqn:E; [|reflexivity].
    exfalso. destruct Hev as [Hev _]. exact (Hev eq_refl i Hi).
Qed.

Lemma checkWinner_without_line_witness :
  (wf_board drawn_board /\
   (forall l m, l ∈ lines -> ~ completed drawn_board l m) /\
   (forall i, ~ empty_at drawn_board i) /\
   checkWinner drawn_board = DrawGame) /\
  (wf_board corner_board /\
   (forall l m, l ∈ lines -> ~ completed corner_board l m) /\
   (exists i, empty_at corner_board i) /\
   checkWinner corner_board = NoResult).
Proof.
  assert (Hwf : wf_board drawn_board).
  { split; [reflexivity|]. repeat constructor. }
  assert (Hno : forall l m, l ∈ lines -> ~ completed drawn_board l m).
  { no_line. }
  assert (Hfull : forall i, ~ empty_at drawn_board i).
  { intros i. unfold empty_at.
    do 9 (destruct i as [|i]; [discriminate|]). discriminate. }
  assert (Hwf' : wf_board corner_board).
  { split; [reflexivity|]. repeat constructor. }
  assert (Hno' : forall l m, l ∈ lines -> ~ completed corner_board l m).
  { no_line. }
  assert (Hex : exists i, empty_at corner_board i) by (by exists 0).
  split.
  - split; [exact Hwf|]. split; [exact Hno|]. split; [exact Hfull|].
    exact (proj1 (checkWinner_without_line drawn_board Hwf Hno) Hfull).
  - split; [exact Hwf'|]. split; [exact Hno'|]. split; [exact Hex|].
    exact (proj2 (checkWinner_without_line corner_board Hwf' Hno') Hex).
Defined.

(** C2: on every board, if the line at position [k] of the check order
    (rows, then columns, then diagonals) is completed by mark [m] and no
    line before it is completed, [checkWinner] returns [m], whatever
    lines are completed after it. *)
Theorem checkWinner_first_completed (b : Board) (k : nat) l (m : Mark) :
  lines !! k = Some l ->
  completed b l m ->
  (forall j l' m', j < k -> lines !! j = Some l' -> ~ completed b l' m') ->
  lines = [ (0, 1, 2); (3, 4, 5); (6, 7, 8);
            (0, 3, 6); (1, 4, 7); (2, 5, 8);
            (0, 4, 8); (2, 4, 6) ] /\
  checkWinner b = Won m.
Proof.
  intros Hk Hl Hbefore. split; [reflexivity|].
  unfold checkWinner.
  pose proof (take_drop_middle lines k l Hk) as Hsplit.
  rewrite <- Hsplit.
  rewrite (scan_lines_first b (take k lines) l (drop (S k) lines) m); [done| |done].
  intros l' m' Hin.
  apply list_elem_of_lookup in Hin as [j Hj].
  pose proof (lookup_lt_Some _ _ _ Hj) as Hlt.
  rewrite length_take in Hlt.
  rewrite lookup_take_lt in Hj by lia.
  apply (Hbefore j); [lia|done].
Qed.

(** Conversely a mark is returned only for a completed line. *)
Lemma checkWinner_won_line (b : Board) (m : Mark) :
  checkWinner b = Won m -> exists l, l ∈ lines /\ completed b l m.
Proof.
  unfold checkWinner. destruct (scan_lines b lines) as [m'|] eqn:E.
  - intros [= <-]. by apply scan_lines_some.
  - by destruct (every_truthy b).
Qed.

Lemma checkWinner_first_completed_witness :
  lines !! 1 = Some (3, 4, 5) /\
  completed two_rows_board (3, 4, 5) X /\
  (forall j l' m', j < 1 -> lines !! j = Some l' ->
     ~ completed two_rows_board l' m') /\
  checkWinner two_rows_board = Won X.
Proof.
  assert (Hc : completed two_rows_board (3, 4, 5) X) by (by repeat split).
  assert (Hb : forall j l' m', j < 1 -> lines !! j = Some l' ->
                 ~ completed two_rows_board l' m').
  { intros j l' m' Hj Hl. assert (j = 0) as -> by lia.
    injection Hl as <-. destruct m'; intros (? & ? & ?); discriminate. }
  split; [reflexivity|]. split; [exact Hc|]. split; [exact Hb|].
  exact (proj2 (checkWinner_first_completed two_rows_board 1 (3, 4, 5) X
                  eq_refl Hc Hb)).
Defined.

End CheckWinner.

(** ** [computerMove] *)

Module ComputerMove.
Import Engine Props Scenarios EngineFacts.

(** On a game board the test of the search loops is the test of
    [wins_at]. *)
Lemma wins_at_copy (b : Board) (m : Mark) i :
  wf_board b ->
  wins_at b m i <->
  empty_at b i /\ checkWinner (array_set (spread b) i (JStr m)) = Won m.
Proof.
  intros [_ Hb]. unfold wins_at. split; intros [He Hw]; (split; [done|]).
  - rewrite copy_is_place; [done|done|by apply empty_at_lt].
  - rewrite copy_is_place in Hw; [done|done|by apply empty_at_lt].
Qed.

Lemma try_moves_least (b : Board) (m : Mark) i :
  wf_board b ->
  try_moves b m (getAvailableMoves b) = Some i -> least (wins_at b m) i.
Proof.
  intros Hwf H. apply try_moves_some in H as (pre & post & Hsplit & Hi & Hpre).
  assert (Hin : i ∈ getAvailableMoves b).
  { rewrite Hsplit. apply elem_of_app. right. by left. }
  split.
  - apply wins_at_copy; [done|]. split; [|done].
    by apply elem_of_getAvailableMoves.
  - intros j Hlt Hj. apply wins_at_copy in Hj as [Hje Hjw]; [|done].
    apply (Hpre j); [|done].
    by apply (getAvailableMoves_split b pre i post j).
Qed.

Lemma try_moves_finds (b : Board) (m : Mark) :
  wf_board b ->
  (exists i, wins_at b m i) ->
  exists i, try_moves b m (getAvailableMoves b) = Some i.
Proof.
  intros Hwf [i Hi].
  destruct (try_moves b m (getAvailableMoves b)) as [i0|] eqn:E; [eauto|].
  exfalso. apply wins_at_copy in Hi as [He Hw]; [|done].
  rewrite try_moves_none in E. apply (E i); [|done].
  by apply elem_of_getAvailableMoves.
Qed.

Lemma try_moves_fails (b : Board) (m : Mark) :
  wf_board b ->
  (forall i, ~ wins_at b m i) ->
  try_moves b m (getAvailableMoves b) = None.
Proof.
  intros Hwf Hno. apply try_moves_none. intros j Hj Hw.
  apply (Hno j). apply wins_at_copy; [done|]. split; [|done].
  by apply elem_of_getAvailableMoves.
Qed.

(** C3: on a game board, if some empty cell wins for the computer's
    mark, [computerMove] returns the smallest such cell; if none does
    but some empty cell wins for the opponent's mark, it returns the
    smallest of those.  The random draw plays no part in either case. *)
Theorem computerMove_win_then_block (seed : nat) (b : Board) (aiMark humanMark : Mark) :
  wf_board b ->
  ((exists i, wins_at b aiMark i) ->
   exists i, computerMove seed b aiMark humanMark = Some i /\
             least (wins_at b aiMark) i) /\
  ((forall i, ~ wins_at b aiMark i) ->
   (exists i, wins_at b humanMark i) ->
   exists i, computerMove seed b aiMark humanMark = Some i /\
             least (wins_at b humanMark) i).
Proof.
  intros Hwf. unfold computerMove. split.
  - intros Hex. destruct (try_moves_finds b aiMark Hwf Hex) as [i Hi].
    rewrite Hi. exists i. split; [reflexivity|].
    by apply try_moves_least.
  - intros Hno Hex. rewrite (try_moves_fails b aiMark Hwf Hno).
    destruct (try_moves_finds b humanMark Hwf Hex) as [i Hi].
    rewrite Hi. exists i. split; [reflexivity|].
    by apply try_moves_least.
Qed.

Lemma scenario_board_wf : wf_board scenario_board.
Proof. split; [reflexivity|]. repeat constructor. Qed.

Lemma threat_board_wf : wf_board threat_board.
Proof. split; [reflexivity|]. repeat constructor. Qed.

Lemma threat_board_no_win : forall i, ~ wins_at threat_board O i.
Proof.
  intros i [He Hw]. pose proof (empty_at_lt _ _ He) as Hlt. simpl in Hlt.
  do 9 (destruct i as [|i]; [vm_compute in Hw; discriminate|]). lia.
Qed.

Lemma computerMove_win_then_block_witness :
  (wf_board scenario_board /\
   (exists i, wins_at scenario_board O i) /\
   exists i, computerMove 0 scenario_board O X = Some i /\
             least (wins_at scenario_board O) i) /\
  (wf_board threat_board /\
   (forall i, ~ wins_at threat_board O i) /\
   (exists i, wins_at threat_board X i) /\
   exists i, computerMove 0 threat_board O X = Some i /\
             least (wins_at threat_board X) i).
Proof.
  assert (Hwin : exists i, wins_at scenario_board O i).
  { exists 5. split; reflexivity. }
  assert (Hthreat : exists i, wins_at threat_board X i).
  { exists 2. split; reflexivity. }
  split.
  - split; [exact scenario_board_wf|]. split; [exact Hwin|].
    exact (proj1 (computerMove_win_then_block 0 scenario_board O X
                    scenario_board_wf) Hwin).
  - split; [exact threat_board_wf|]. split; [exact threat_board_no_win|].
    split; [exact Hthreat|].
    exact (proj2 (computerMove_win_then_block 0 threat_board O X
                    threat_board_wf) threat_board_no_win Hthreat).
Defined.

(** C4, as the code has it: on [[X, X, _, O, O, _, _, _, _]] with the
    computer playing O against X, [computerMove] returns index 5, which
    completes O's own line 3-4-5; winning comes before blocking at 2. *)
Theorem computerMove_scenario (seed : nat) :
  computerMove seed scenario_board O X = Some 5.
Proof. reflexivity. Qed.

(** C4, as stated: the returned index is not the blocking index 2. *)
Lemma computerMove_scenario_not_block :
  computerMove 0 scenario_board O X <> Some 2.
Proof. vm_compute. discriminate. Qed.

Lemma loose_null_empty (b : Board) i :
  wf_board b -> i < 9 -> loose_null (get b i) = true -> empty_at b i.
Proof.
  intros Hwf Hi Hn. destruct (wf_board_cell b i Hwf Hi) as [He|[m Hm]]; [done|].
  unfold get in Hn. rewrite Hm in Hn. discriminate.
Qed.

(** Every index of the range is a possible draw. *)
Lemma random_index_any (k n : nat) : k < n -> random_index k n = k.
Proof. intros H. unfold random_index. by apply Nat.mod_small. Qed.

(** A draw of [random_index] in a non-empty list reads an element. *)
Lemma random_pick (l : list nat) seed :
  0 < length l -> exists x, l !! random_index seed (length l) = Some x /\ x ∈ l.
Proof.
  intros Hlen.
  destruct (lookup_lt_is_Some_2 l (random_index seed (length l))) as [x Hx].
  { unfold random_index. apply Nat.mod_upper_bound. lia. }
  exists x. split; [done|]. apply list_elem_of_lookup. eauto.
Qed.

Lemma computerMove_some_empty (seed : nat) (b : Board) (aiMark humanMark : Mark) i :
  wf_board b ->
  computerMove seed b aiMark humanMark = Some i -> empty_at b i.
Proof.
  intros Hwf. unfold computerMove.
  destruct (try_moves b aiMark (getAvailableMoves b)) as [i1|] eqn:E1.
  { intros [= <-]. by apply (try_moves_least b aiMark i1 Hwf) in E1 as [[? _] _]. }
  destruct (try_moves b humanMark (getAvailableMoves b)) as [i2|] eqn:E2.
  { intros [= <-]. by apply (try_moves_least b humanMark i2 Hwf) in E2 as [[? _] _]. }
  destruct (loose_null (get b 4)) eqn:E4.
  { intros [= <-]. apply loose_null_empty; [done|lia|done]. }
  case_decide as Hc.
  { intros H. apply list_elem_of_lookup_2 in H. apply list_elem_of_In in H.
    apply filter_In in H as [Hin Hn].
    apply loose_null_empty; [done| |done].
    simpl in Hin. lia. }
  case_decide as Ha; [discriminate|].
  intros H. apply list_elem_of_lookup_2 in H.
  by apply elem_of_getAvailableMoves.
Qed.

Lemma computerMove_none_full (seed : nat) (b : Board) (aiMark humanMark : Mark) :
  wf_board b ->
  computerMove seed b aiMark humanMark = None -> forall i, ~ empty_at b i.
Proof.
  intros Hwf. unfold computerMove.
  destruct (try_moves b aiMark (getAvailableMoves b)); [discriminate|].
  destruct (try_moves b humanMark (getAvailableMoves b)); [discriminate|].
  destruct (loose_null (get b 4)); [discriminate|].
  case_decide as Hc.
  { destruct (random_pick _ seed Hc) as (x & -> & _). discriminate. }
  case_decide as Ha.
  - intros _ i Hi. apply elem_of_getAvailableMoves in Hi.
    apply length_zero_iff_nil in Ha. rewrite Ha in Hi. by apply elem_of_nil in Hi.
  - assert (Hpos : 0 < length (getAvailableMoves b)) by lia.
    destruct (random_pick _ seed Hpos) as (x & -> & _). discriminate.
Qed.

Lemma computerMove_full_none (seed : nat) (b : Board) (aiMark humanMark : Mark) :
  wf_board b ->
  (forall i, ~ empty_at b i) -> computerMove seed b aiMark humanMark = None.
Proof.
  intros Hwf Hfull.
  destruct (computerMove seed b aiMark humanMark) as [i|] eqn:E; [|reflexivity].
  exfalso. apply (Hfull i). by apply (computerMove_some_empty seed b aiMark humanMark).
Qed.

(** C5: on a game board with an empty cell, [computerMove] returns the
    index of an empty cell, whatever the random draw; it returns [null]
    exactly when no cell is empty. *)
Theorem computerMove_plays_empty (seed : nat) (b : Board) (aiMark humanMark : Mark) :
  wf_board b ->
  ((exists i, empty_at b i) ->
   exists i, computerMove seed b aiMark humanMark = Some i /\ empty_at b i) /\
  (computerMove seed b aiMark humanMark = None <-> forall i, ~ empty_at b i).
Proof.
  intros Hwf. split.
  - intros [j Hj].
    destruct (computerMove seed b aiMark humanMark) as [i|] eqn:E.
    + exists i. split; [reflexivity|].
      by apply (computerMove_some_empty seed b aiMark humanMark).
    + exfalso. by apply (computerMove_none_full seed b aiMark humanMark Hwf E j).
  - split.
    + by apply computerMove_none_full.
    + by apply computerMove_full_none.
Qed.

Lemma computerMove_plays_empty_witness :
  wf_board corner_board /\
  (exists i, empty_at corner_board i) /\
  (exists i, computerMove 7 corner_board O X = Some i /\ empty_at corner_board i) /\
  (computerMove 7 corner_board O X = None <-> forall i, ~ empty_at corner_board i).
Proof.
  assert (Hwf : wf_board corner_board).
  { split; [reflexivity|]. repeat constructor. }
  assert (Hex : exists i, empty_at corner_board i) by (by exists 0).
  split; [exact Hwf|]. split; [exact Hex|]. split.
  - exact (proj1 (computerMove_plays_empty 7 corner_board O X Hwf) Hex).
  - exact (proj2 (computerMove_plays_empty 7 corner_board O X Hwf)).
Defined.

End ComputerMove.

(** ** The commit loop *)

Module RuntimeFacts.
Import Engine Controller Runtime Props.

Lemma state_eta (s : State) :
  mkState (mode s) (board s) (isXTurn s) (winner s) (gameActive s) = s.
Proof. by destruct s. Qed.

Lemma world_eta (w : World) : mkWorld (st w) (pending w) = w.
Proof. by destruct w. Qed.

Lemma commit_S fuel (prev : State) us p :
  commit (S fuel) prev us p =
  let cur := apply_updates us prev in
  if negb (board_replaced us) && bool_decide (cur = prev)
  then Some (mkWorld cur p)
  else
    let mode_changed := negb (bool_decide (mode cur = mode prev)) in
    let deps_changed :=
      board_replaced us
      || negb (bool_decide (isXTurn cur = isXTurn prev))
      || mode_changed in
    let us1 := if mode_changed then handleRestart else [] in
    let '(us2, p') :=
      if deps_changed then boardEffect cur else ([], p) in
    commit fuel cur (us1 ++ us2) p'.
Proof. reflexivity. Qed.

(** An empty queue: no render. *)
Lemma commit_nil fuel (s : State) p :
  commit (S fuel) s [] p = Some (mkWorld s p).
Proof. rewrite commit_S. cbn. by rewrite bool_decide_true. Qed.

(** A queue that changes no dependency: at most one render, no effect. *)
Lemma commit_plain fuel (prev : State) us p :
  board_replaced us = false ->
  mode (apply_updates us prev) = mode prev ->
  isXTurn (apply_updates us prev) = isXTurn prev ->
  commit (S (S fuel)) prev us p = Some (mkWorld (apply_updates us prev) p).
Proof.
  intros Hb Hm Hx. rewrite commit_S. cbv zeta. rewrite Hb, Hm, Hx.
  rewrite (bool_decide_true (isXTurn prev = isXTurn prev)) by done.
  rewrite (bool_decide_true (mode prev = mode prev)) by done.
  cbn [negb andb orb app].
  case_bool_decide as Heq; [reflexivity|]. apply commit_nil.
Qed.

(** A queue that replaces the board and keeps the mode: the board effect
    runs once (after the cleanup of its previous run), and its updates
    are committed. *)
Lemma commit_board fuel (prev : State) us p :
  board_replaced us = true ->
  mode (apply_updates us prev) = mode prev ->
  commit (S (S (S fuel))) prev us p = Some (settled (apply_updates us prev)).
Proof.
  intros Hb Hm. rewrite commit_S. cbv zeta. rewrite Hb, Hm.
  rewrite (bool_decide_true (mode prev = mode prev)) by done.
  cbn [negb andb orb app].
  unfold boardEffect, settled. cbn [fst snd].
  apply commit_plain; reflexivity.
Qed.

Lemma settled_st (s : State) :
  st (settled s) =
  mkState (mode s) (board s) (isXTurn s) (checkWinner (board s))
    (is_null (checkWinner (board s))).
Proof. reflexivity. Qed.

Lemma settled_pending (s : State) r :
  pending (settled s) = Some r -> r = s /\ expects_computer s.
Proof.
  unfold settled, boardEffect. cbn [snd pending].
  destruct (bool_decide (mode s = SINGLE)) eqn:Em; [|discriminate].
  destruct (isXTurn s) eqn:Ex; [discriminate|].
  destruct (checkWinner (board s)) eqn:Ew; try discriminate.
  cbn. intros [= <-]. split; [reflexivity|].
  apply bool_decide_eq_true in Em. by repeat split.
Qed.

Lemma settled_fresh (s : State) : timer_fresh (settled s).
Proof.
  intros r Hr. apply settled_pending in Hr as [-> He].
  rewrite settled_st. cbn. by split; [|split; [|split]].
Qed.

Lemma makeMove_cases (r : State) idx :
  makeMove r idx = [] \/
  (gameActive r = true /\ truthy (get (board r) idx) = false /\
   makeMove r idx =
     [SetBoard (array_set (spread (board r)) idx (JStr (activeMark r)));
      ToggleIsXTurn]).
Proof.
  unfold makeMove.
  destruct (gameActive r); cbn; [|by left].
  destruct (truthy (get (board r) idx)); cbn; [by left|].
  right. by repeat split.
Qed.

Lemma handleCellClick_cases (r : State) idx :
  handleCellClick r idx = [] \/ handleCellClick r idx = makeMove r idx.
Proof.
  unfold handleCellClick.
  destruct (mode r), (isXTurn r), (loose_null (get (board r) idx)); cbn; auto.
Qed.

Lemma aiCallback_cases seed (r : State) :
  aiCallback seed r = [] \/
  exists idx, computerMove seed (board r) O X = Some idx /\
              loose_null (get (board r) idx) = true /\
              aiCallback seed r = makeMove r idx.
Proof.
  unfold aiCallback.
  destruct (computerMove seed (board r) O X) as [idx|]; [|by left].
  destruct (loose_null (get (board r) idx)) eqn:E; [|by left].
  right. exists idx. by repeat split.
Qed.

(** A move queued from the closure of render [r], committed on [s]. *)
Lemma commit_move (r s : State) idx p :
  makeMove r idx <> [] ->
  commit render_budget s (makeMove r idx) p =
  Some (settled
          (mkState (mode s)
             (array_set (spread (board r)) idx (JStr (activeMark r)))
             (negb (isXTurn s)) (winner s) (gameActive s))).
Proof.
  intros Hne. destruct (makeMove_cases r idx) as [H|(_ & _ & H)]; [done|].
  rewrite H. unfold render_budget. rewrite commit_board; reflexivity.
Qed.

Lemma commit_restart (s : State) p :
  commit render_budget s handleRestart p = Some (mkWorld (freshState (mode s)) None).
Proof.
  unfold render_budget. rewrite commit_board; [|reflexivity..].
  unfold settled, boardEffect. cbn. by rewrite andb_false_r.
Qed.

Lemma commit_same_mode (s : State) p :
  commit render_budget s [SetMode (mode s)] p = Some (mkWorld s p).
Proof.
  unfold render_budget. rewrite commit_S.
  cbn [apply_updates fold_left apply_update]. cbv zeta.
  rewrite state_eta. cbn. by rewrite bool_decide_true.
Qed.

Lemma commit_new_mode (s : State) m p :
  m <> mode s ->
  commit render_budget s [SetMode m] p = Some (mkWorld (freshState m) None).
Proof.
  intros Hne. unfold render_budget. rewrite commit_S.
  cbn [apply_updates fold_left apply_update board_replaced existsb
       sets_board negb andb orb mode isXTurn]. cbv zeta.
  rewrite (bool_decide_false (_ = s)).
  2:{ intros H. apply Hne. by rewrite <- H. }
  cbn [mode]. rewrite (bool_decide_false (m = mode s)) by done.
  cbn [negb orb]. rewrite orb_true_r.
  unfold boardEffect at 1.
  rewrite commit_board; [|reflexivity..].
  unfold settled, boardEffect. cbn. by rewrite andb_false_r.
Qed.

End RuntimeFacts.

(** ** The handlers of [App] *)

Module Session.
Import Engine Controller Runtime Props Scenarios EngineFacts RuntimeFacts.

(** C6: a click is rejected without any state change when the session is
    inactive, when the cell is occupied, or when in single-player mode
    it is not X's turn: the handler queues no update (and so does
    [makeMove] on an inactive session or an occupied cell), and the
    whole session, pending timer included, is as before. *)
Theorem rejected_click_changes_nothing (w : World) (idx : nat) :
  gameActive (st w) = false \/
  (exists m, get (board (st w)) idx = JStr m) \/
  (mode (st w) = SINGLE /\ isXTurn (st w) = false) ->
  handleCellClick (st w) idx = [] /\
  (gameActive (st w) = false \/ (exists m, get (board (st w)) idx = JStr m) ->
   makeMove (st w) idx = []) /\
  step w (Click idx) = Some w.
Proof.
  intros Hc.
  assert (Hmk : gameActive (st w) = false \/
                (exists m, get (board (st w)) idx = JStr m) ->
                makeMove (st w) idx = []).
  { unfold makeMove. intros [->|[m ->]]; [reflexivity|]. cbn.
    by rewrite orb_true_r. }
  assert (Hh : handleCellClick (st w) idx = []).
  { unfold handleCellClick.
    destruct Hc as [Hg|[[m Hm]|[Hs Hx]]].
    - rewrite Hmk by (by left).
      by destruct (mode (st w)), (isXTurn (st w)),
           (loose_null (get (board (st w)) idx)).
    - rewrite Hm. cbn. rewrite orb_true_r. by destruct (mode (st w)).
    - by rewrite Hs, Hx. }
  split; [exact Hh|]. split; [exact Hmk|].
  cbn [step]. rewrite Hh. unfold render_budget. rewrite commit_nil.
  by rewrite world_eta.
Qed.

Lemma rejected_click_changes_nothing_witness :
  (gameActive (st finished_world) = false \/
   (exists m, get (board (st finished_world)) 2 = JStr m) \/
   (mode (st finished_world) = SINGLE /\ isXTurn (st finished_world) = false)) /\
  handleCellClick (st finished_world) 2 = [] /\
  step finished_world (Click 2) = Some finished_world.
Proof.
  assert (Hc : gameActive (st finished_world) = false \/
    (exists m, get (board (st finished_world)) 2 = JStr m) \/
    (mode (st finished_world) = SINGLE /\ isXTurn (st finished_world) = false)).
  { left. reflexivity. }
  split; [exact Hc|].
  pose proof (rejected_click_changes_nothing finished_world 2 Hc) as (H1 & _ & H3).
  split; [exact H1|exact H3].
Defined.

(** C7: on an active session, a click on an empty cell (in single-player
    mode: on X's turn) is applied: the cell holds "X" if it was X's turn
    and "O" otherwise, every other cell and the mode are as before (on a
    game board the new board is the old one with that one cell
    replaced), the turn is flipped, the result is [checkWinner] of the
    new board, and the session is active if that result is [null] and
    inactive if it is a mark or a draw. *)
Theorem accepted_click_applies_move (w : World) (idx : nat) :
  gameActive (st w) = true ->
  empty_at (board (st w)) idx ->
  (mode (st w) = SINGLE -> isXTurn (st w) = true) ->
  exists w',
    step w (Click idx) = Some w' /\
    get (board (st w')) idx = JStr (if isXTurn (st w) then X else O) /\
    length (board (st w')) = length (board (st w)) /\
    (forall j, j <> idx -> get (board (st w')) j = get (board (st w)) j) /\
    (wf_board (board (st w)) ->
     board (st w') =
       <[idx := Some (JStr (if isXTurn (st w) then X else O))]> (board (st w))) /\
    mode (st w') = mode (st w) /\
    isXTurn (st w') = negb (isXTurn (st w)) /\
    winner (st w') = checkWinner (board (st w')) /\
    gameActive (st w') =
      match checkWinner (board (st w')) with
      | NoResult => true
      | Won _ => false
      | DrawGame => false
      end.
Proof.
  intros Hact Hempty Hturn.
  pose proof (empty_at_get _ _ Hempty) as Hget.
  pose proof (empty_at_lt _ _ Hempty) as Hlt.
  assert (Hmk : makeMove (st w) idx =
            [SetBoard (array_set (spread (board (st w))) idx
                         (JStr (activeMark (st w))));
             ToggleIsXTurn]).
  { unfold makeMove. by rewrite Hact, Hget. }
  assert (Hh : handleCellClick (st w) idx = makeMove (st w) idx).
  { unfold handleCellClick. rewrite Hget. cbn.
    destruct (mode (st w)); [|reflexivity].
    by rewrite Hturn. }
  eexists. split.
  { cbn [step]. rewrite Hh. apply commit_move. by rewrite Hmk. }
  rewrite settled_st. cbn [st board mode isXTurn winner gameActive].
  unfold activeMark.
  split; [apply get_array_set_eq|].
  split; [rewrite length_array_set_lt; rewrite length_spread; done|].
  split.
  { intros j Hj. rewrite get_array_set_ne by done. apply get_spread. }
  split.
  { intros [_ Hb]. by apply copy_is_place. }
  split; [reflexivity|]. split; [reflexivity|]. split; [reflexivity|].
  by destruct (checkWinner _).
Qed.

Lemma accepted_click_applies_move_witness :
  gameActive (st initialWorld) = true /\
  empty_at (board (st initialWorld)) 4 /\
  (mode (st initialWorld) = SINGLE -> isXTurn (st initialWorld) = true) /\
  exists w',
    step initialWorld (Click 4) = Some w' /\
    get (board (st w')) 4 = JStr (if isXTurn (st initialWorld) then X else O) /\
    length (board (st w')) = length (board (st initialWorld)) /\
    (forall j, j <> 4 -> get (board (st w')) j = get (board (st initialWorld)) j) /\
    (wf_board (board (st initialWorld)) ->
     board (st w') =
       <[4 := Some (JStr (if isXTurn (st initialWorld) then X else O))]>
         (board (st initialWorld))) /\
    mode (st w') = mode (st initialWorld) /\
    isXTurn (st w') = negb (isXTurn (st initialWorld)) /\
    winner (st w') = checkWinner (board (st w')) /\
    gameActive (st w') =
      match checkWinner (board (st w')) with
      | NoResult => true
      | Won _ => false
      | DrawGame => false
      end.
Proof.
  split; [reflexivity|]. split; [reflexivity|]. split; [reflexivity|].
  exact (accepted_click_applies_move initialWorld 4 eq_refl eq_refl
           (fun _ => eq_refl)).
Defined.

(** C8: [handleRestart] always succeeds and, whatever the session was,
    leaves an all-empty board, X to move, no result and an active
    session; the commit that follows keeps that state and leaves no
    timer pending. *)
Theorem handleRestart_resets (w : World) :
  apply_updates handleRestart (st w) =
    mkState (mode (st w)) (replicate 9 (Some JNull)) true NoResult true /\
  step w Restart =
    Some (mkWorld
            (mkState (mode (st w)) (replicate 9 (Some JNull)) true NoResult true)
            None).
Proof.
  split; [reflexivity|]. cbn [step]. apply commit_restart.
Qed.

Lemma count_mark_cons (m : Mark) (x : slot) (b : Board) :
  count_mark m (x :: b) =
  (if bool_decide (x = Some (JStr m)) then 1 else 0) + count_mark m b.
Proof. unfold count_mark. cbn. by case_bool_decide. Qed.

Lemma count_mark_app (m : Mark) (b c : Board) :
  count_mark m (b ++ c) = count_mark m b + count_mark m c.
Proof. unfold count_mark. by rewrite List.filter_app, length_app. Qed.

Lemma count_mark_holes (m : Mark) n : count_mark m (replicate n None) = 0.
Proof.
  induction n as [|n IH]; [reflexivity|].
  change (replicate (S n) None) with (@None jsval :: replicate n None).
  by rewrite count_mark_cons, IH.
Qed.

Lemma count_mark_spread (m : Mark) (b : Board) :
  count_mark m (spread b) = count_mark m b.
Proof.
  induction b as [|x b IH]; [reflexivity|].
  change (spread (x :: b)) with (Some (default JUndefined x) :: spread b).
  rewrite !count_mark_cons, IH. by destruct x as [[| |[|]]|], m.
Qed.

(** Overwriting a cell that holds no mark adds one to the count of the
    mark written and leaves the other count alone. *)
Lemma count_mark_insert (m m' : Mark) (b : Board) i :
  i < length b -> truthy (get b i) = false ->
  count_mark m (<[i := Some (JStr m')]> b) =
  count_mark m b + (if bool_decide (m' = m) then 1 else 0).
Proof.
  revert i. induction b as [|x b IH]; intros i Hi Hx; [cbn in Hi; lia|].
  destruct i as [|i]; cbn [insert list_insert]; rewrite !count_mark_cons.
  - rewrite get_cons_0 in Hx.
    rewrite (bool_decide_false (x = _)).
    2:{ intros ->. discriminate. }
    repeat case_bool_decide; congruence || lia.
  - cbn in Hi. rewrite get_cons_S in Hx.
    change (list_insert i (Some (JStr m')) b) with (<[i := Some (JStr m')]> b).
    rewrite IH by (done || lia). lia.
Qed.

(** The same for the write of [makeMove], also past the end. *)
Lemma count_mark_move (m m' : Mark) (b : Board) i :
  truthy (get b i) = false ->
  count_mark m (array_set (spread b) i (JStr m')) =
  count_mark m b + (if bool_decide (m' = m) then 1 else 0).
Proof.
  intros Hx. unfold array_set. case_decide as Hi.
  - rewrite count_mark_insert; [by rewrite count_mark_spread|done|].
    by rewrite get_spread.
  - rewrite !count_mark_app, count_mark_holes, count_mark_spread.
    rewrite count_mark_cons. cbn.
    repeat case_bool_decide; congruence || lia.
Qed.

(** A move written from a closure that has the current board and turn
    keeps the balance. *)
Lemma balanced_after_move (s r : State) idx o g :
  balanced s ->
  board r = board s -> isXTurn r = isXTurn s ->
  truthy (get (board r) idx) = false ->
  balanced
    (mkState (mode s)
       (array_set (spread (board r)) idx (JStr (activeMark r)))
       (negb (isXTurn s)) o g).
Proof.
  unfold balanced. intros Hs Hb Hx Hfree.
  cbn [board isXTurn]. rewrite !count_mark_move by done.
  unfold activeMark. rewrite Hb, Hx.
  destruct (isXTurn s); cbn [negb];
    repeat case_bool_decide; congruence || lia.
Qed.

(** C10: in every session reached from the first render by calls of
    [makeMove] and [handleRestart], the board holds as many X as O when
    X is to move and one X more when O is to move; the two counts never
    differ by more than one. *)
Theorem marks_balanced (s : State) :
  session_reachable s ->
  count_mark X (board s) = count_mark O (board s) + (if isXTurn s then 0 else 1) /\
  count_mark O (board s) <= count_mark X (board s) <= count_mark O (board s) + 1.
Proof.
  intros Hr.
  assert (Heq : balanced s).
  { induction Hr as [|s idx Hr IH|s Hr IH|s Hr IH].
    - reflexivity.
    - destruct (makeMove_cases s idx) as [->|(_ & Hfree & ->)]; [exact IH|].
      cbn [apply_updates fold_left apply_update
           mode board isXTurn winner gameActive].
      by apply (balanced_after_move s s).
    - reflexivity.
    - exact IH. }
  unfold balanced in Heq. split; [exact Heq|]. destruct (isXTurn s); lia.
Qed.

Lemma marks_balanced_witness :
  session_reachable (apply_updates (makeMove initialState 4) initialState) /\
  count_mark X (board (apply_updates (makeMove initialState 4) initialState)) =
    count_mark O (board (apply_updates (makeMove initialState 4) initialState))
    + (if isXTurn (apply_updates (makeMove initialState 4) initialState)
       then 0 else 1) /\
  count_mark X (board (apply_updates (makeMove initialState 4) initialState)) = 1 /\
  isXTurn (apply_updates (makeMove initialState 4) initialState) = false.
Proof.
  assert (Hr : session_reachable
                 (apply_updates (makeMove initialState 4) initialState)).
  { apply reach_move. apply reach_init. }
  split; [exact Hr|].
  split; [exact (proj1 (marks_balanced _ Hr))|].
  split; reflexivity.
Defined.

End Session.

(** ** The deferred move of the computer *)

Module Deferred.
Import Engine Controller Runtime Props Scenarios EngineFacts RuntimeFacts Session.

(** Mounting the component gives the initial world. *)
Lemma mount_initial : mount = Some initialWorld.
Proof.
  unfold mount, render_budget. rewrite commit_board; reflexivity.
Qed.

(** What the firing of the timer does to a world. *)
Lemma step_fire (w : World) seed :
  (pending w = None /\ step w (Fire seed) = Some w) \/
  (exists r, pending w = Some r /\
     (step w (Fire seed) = Some (mkWorld (st w) None) \/
      exists idx,
        computerMove seed (board r) O X = Some idx /\
        loose_null (get (board r) idx) = true /\
        step w (Fire seed) =
          Some (settled
                  (mkState (mode (st w))
                     (array_set (spread (board r)) idx (JStr (activeMark r)))
                     (negb (isXTurn (st w))) (winner (st w))
                     (gameActive (st w)))))).
Proof.
  cbn [step]. destruct (pending w) as [r|]; [right|left; done].
  exists r. split; [reflexivity|].
  destruct (aiCallback_cases seed r) as [->|(idx & Hc & Hn & ->)].
  { left. apply commit_nil. }
  destruct (makeMove_cases r idx) as [Hmk|(_ & _ & Hmk)].
  { left. rewrite Hmk. apply commit_nil. }
  right. exists idx. split; [done|]. split; [done|].
  apply commit_move. by rewrite Hmk.
Qed.

Lemma step_click (w : World) idx :
  step w (Click idx) = Some w \/
  (truthy (get (board (st w)) idx) = false /\
   step w (Click idx) =
     Some (settled
             (mkState (mode (st w))
                (array_set (spread (board (st w))) idx
                   (JStr (activeMark (st w))))
                (negb (isXTurn (st w))) (winner (st w))
                (gameActive (st w))))).
Proof.
  cbn [step]. destruct (handleCellClick_cases (st w) idx) as [->| ->].
  { left. unfold render_budget. by rewrite commit_nil, world_eta. }
  destruct (makeMove_cases (st w) idx) as [Hmk|(_ & Hfree & Hmk)].
  { left. rewrite Hmk. unfold render_budget. by rewrite commit_nil, world_eta. }
  right. split; [done|]. apply commit_move. by rewrite Hmk.
Qed.

Lemma step_mode (w : World) m :
  (m = mode (st w) /\ step w (ChangeMode m) = Some w) \/
  (m <> mode (st w) /\
   step w (ChangeMode m) = Some (mkWorld (freshState m) None)).
Proof.
  cbn [step]. destruct (decide (m = mode (st w))) as [->|Hne].
  - left. split; [reflexivity|]. by rewrite commit_same_mode, world_eta.
  - right. split; [done|]. by apply commit_new_mode.
Qed.

(** Every event is processed within the render budget. *)
Lemma step_total (w : World) e : exists w', step w e = Some w'.
Proof.
  destruct e as [idx| |m|seed].
  - destruct (step_click w idx) as [H|[_ H]]; eauto.
  - cbn [step]. rewrite commit_restart. eauto.
  - destruct (step_mode w m) as [[_ H]|[_ H]]; eauto.
  - destruct (step_fire w seed) as [[_ H]|(r & _ & [H|(idx & _ & _ & H)])]; eauto.
Qed.

Lemma no_timer_fresh (s : State) : timer_fresh (mkWorld s None).
Proof. intros r Hr. discriminate. Qed.

(** A pending timer always belongs to the current board, turn and mode. *)
Lemma step_fresh (w w' : World) e :
  timer_fresh w -> step w e = Some w' -> timer_fresh w'.
Proof.
  intros Hw. destruct e as [idx| |m|seed].
  - destruct (step_click w idx) as [H|[_ H]]; rewrite H; intros [= <-];
      [done|apply settled_fresh].
  - cbn [step]. rewrite commit_restart. intros [= <-]. apply no_timer_fresh.
  - destruct (step_mode w m) as [[_ H]|[_ H]]; rewrite H; intros [= <-];
      [done|apply no_timer_fresh].
  - destruct (step_fire w seed) as [[_ H]|(r & _ & [H|(idx & _ & _ & H)])];
      rewrite H; intros [= <-];
      [done|apply no_timer_fresh|apply settled_fresh].
Qed.

Lemma run_fresh (es : list Event) (w w' : World) :
  timer_fresh w -> run w es = Some w' -> timer_fresh w'.
Proof.
  revert w. induction es as [|e es IH]; intros w Hw; cbn [run].
  - by intros [= <-].
  - destruct (step w e) as [w1|] eqn:E; [|discriminate].
    apply IH. by apply (step_fresh w w1 e).
Qed.

Lemma reachable_fresh (w : World) : world_reachable w -> timer_fresh w.
Proof.
  intros [es Hes]. apply (run_fresh es initialWorld w); [|done].
  apply no_timer_fresh.
Qed.

Lemma run_total (es : list Event) (w : World) : exists w', run w es = Some w'.
Proof.
  revert w. induction es as [|e es IH]; intros w; cbn [run]; [eauto|].
  destruct (step_total w e) as [w1 ->]. apply IH.
Qed.

(** C9: in every world reached from the mounted component,
    - when the timer fires, either the state is left as it is, or the
      session was expecting the computer and O is written on a cell
      that [computerMove] chose on the current board and that is empty
      on the current board;
    - a restart, and a change of mode, leave no timer pending, so that
      a firing after them does nothing. *)
Theorem deferred_move_guarded (w : World) (seed : nat) :
  world_reachable w ->
  (exists w',
     step w (Fire seed) = Some w' /\
     (st w' = st w \/
      exists idx,
        pending w <> None /\
        expects_computer (st w) /\
        computerMove seed (board (st w)) O X = Some idx /\
        loose_null (get (board (st w)) idx) = true /\
        board (st w') = array_set (spread (board (st w))) idx (JStr O))) /\
  (exists w',
     step w Restart = Some w' /\ pending w' = None /\
     step w' (Fire seed) = Some w') /\
  (forall m, m <> mode (st w) ->
     exists w',
       step w (ChangeMode m) = Some w' /\ pending w' = None /\
       step w' (Fire seed) = Some w').
Proof.
  intros Hr. pose proof (reachable_fresh w Hr) as Hfresh.
  split; [|split].
  - destruct (step_fire w seed)
      as [[_ H]|(r & Hp & [H|(idx & Hc & Hn & H)])];
      rewrite H; eexists; (split; [reflexivity|]); [by left|by left|].
    right. exists idx.
    destruct (Hfresh r Hp) as (Hb & Hx & Hm & He).
    assert (Hcur : expects_computer (st w)).
    { destruct He as (? & ? & ?). unfold expects_computer.
      by rewrite <- Hb, <- Hx, <- Hm. }
    split; [by rewrite Hp|]. split; [done|].
    rewrite <- Hb. split; [done|]. split; [done|].
    rewrite settled_st. cbn [board]. unfold activeMark.
    destruct He as (_ & -> & _). reflexivity.
  - eexists. split; [cbn [step]; apply commit_restart|]. by split.
  - intros m Hne. destruct (step_mode w m) as [[? _]|[_ H]]; [done|].
    rewrite H. eexists. split; [reflexivity|]. by split.
Qed.

Lemma waiting_world_reachable : world_reachable waiting_world.
Proof. exists [Click 4]. reflexivity. Qed.

Lemma deferred_move_guarded_witness :
  world_reachable waiting_world /\
  (exists w',
     step waiting_world (Fire 3) = Some w' /\
     (st w' = st waiting_world \/
      exists idx,
        pending waiting_world <> None /\
        expects_computer (st waiting_world) /\
        computerMove 3 (board (st waiting_world)) O X = Some idx /\
        loose_null (get (board (st waiting_world)) idx) = true /\
        board (st w') =
          array_set (spread (board (st waiting_world))) idx (JStr O))) /\
  (exists w',
     step waiting_world Restart = Some w' /\ pending w' = None /\
     step w' (Fire 3) = Some w').
Proof.
  split; [exact waiting_world_reachable|].
  pose proof (deferred_move_guarded waiting_world 3 waiting_world_reachable)
    as (H1 & H2 & _).
  split; [exact H1|exact H2].
Defined.

(** The balance of marks also holds along the events of the running
    component, the computer's deferred moves included. *)
Lemma step_balanced (w w' : World) e :
  timer_fresh w -> balanced (st w) -> step w e = Some w' -> balanced (st w').
Proof.
  intros Hfresh Hbal. destruct e as [idx| |m|seed].
  - destruct (step_click w idx) as [H|[Hfree H]]; rewrite H; intros [= <-];
      [done|].
    rewrite settled_st. by apply (balanced_after_move (st w) (st w)).
  - cbn [step]. rewrite commit_restart. by intros [= <-].
  - destruct (step_mode w m) as [[_ H]|[_ H]]; rewrite H; by intros [= <-].
  - destruct (step_fire w seed) as [[_ H]|(r & Hp & [H|(idx & _ & Hn & H)])];
      rewrite H; intros [= <-]; [done|done|].
    destruct (Hfresh r Hp) as (Hb & Hx & _).
    rewrite settled_st. apply (balanced_after_move (st w) r); [done..|].
    by destruct (get (board r) idx).
Qed.

Lemma run_balanced (es : list Event) (w w' : World) :
  timer_fresh w -> balanced (st w) -> run w es = Some w' -> balanced (st w').
Proof.
  revert w. induction es as [|e es IH]; intros w Hf Hb; cbn [run].
  - by intros [= <-].
  - destruct (step w e) as [w1|] eqn:E; [|discriminate].
    apply IH; [by apply (step_fresh w w1 e)|by apply (step_balanced w w1 e)].
Qed.

Lemma world_marks_balanced (w : World) :
  world_reachable w -> balanced (st w).
Proof.
  intros [es Hes]. apply (run_balanced es initialWorld w); [| |done].
  - apply no_timer_fresh.
  - reflexivity.
Qed.

End Deferred.

(** ** Further facts on the engine *)

Module EngineMore.
Import Engine Controller Props Scenarios Conduct EngineFacts ComputerMove.

Lemma sorted_lt_NoDup (l : list nat) : StronglySorted lt l -> NoDup l.
Proof.
  induction 1 as [|x l Hs IH Hall]; [constructor|].
  apply NoDup_cons. split; [|exact IH].
  intros Hin. rewrite Forall_forall in Hall. apply Hall in Hin. lia.
Qed.

(** X1: on every array, holes included, [getAvailableMoves] returns
    exactly the indices whose cell is [null], in strictly ascending
    order, each once. *)
Theorem getAvailableMoves_lists_empty_cells (b : Board) :
  (forall i, i ∈ getAvailableMoves b <-> empty_at b i) /\
  StronglySorted lt (getAvailableMoves b) /\
  NoDup (getAvailableMoves b).
Proof.
  assert (Hs : StronglySorted lt (getAvailableMoves b)).
  { rewrite getAvailableMoves_empties. apply empties_from_sorted. }
  split; [apply elem_of_getAvailableMoves|].
  split; [exact Hs|by apply sorted_lt_NoDup].
Qed.

Lemma lookup_spread (b : Board) j :
  spread b !! j = Some (Some JNull) <-> b !! j = Some (Some JNull).
Proof.
  unfold spread. rewrite list_lookup_fmap.
  destruct (b !! j) as [[[| |m]|]|]; cbn; split; congruence.
Qed.

(** The cells empty after a move are the ones empty before, less the
    one played. *)
Lemma empty_at_after_move (b : Board) i (m : Mark) j :
  empty_at b i ->
  empty_at (array_set (spread b) i (JStr m)) j <-> empty_at b j /\ j <> i.
Proof.
  intros Hi. pose proof (empty_at_lt _ _ Hi) as Hlt.
  unfold array_set. rewrite length_spread.
  destruct (decide (i < length b)); [|lia]. unfold empty_at.
  destruct (decide (j = i)) as [->|Hne].
  - rewrite list_lookup_insert_eq by (by rewrite length_spread).
    split; [discriminate|]. by intros [_ ?].
  - rewrite list_lookup_insert_ne by done. rewrite lookup_spread.
    split; [by intros ?|by intros [? _]].
Qed.

(** X2: playing a mark on an empty cell removes exactly that index from
    the available moves: the list gets one shorter. *)
Theorem getAvailableMoves_after_move (b : Board) (i : nat) (m : Mark) :
  empty_at b i ->
  (forall j, j ∈ getAvailableMoves (array_set (spread b) i (JStr m)) <->
             j ∈ getAvailableMoves b /\ j <> i) /\
  length (getAvailableMoves b) =
  S (length (getAvailableMoves (array_set (spread b) i (JStr m)))).
Proof.
  intros Hi.
  assert (Hmem : forall j,
            j ∈ getAvailableMoves (array_set (spread b) i (JStr m)) <->
            j ∈ getAvailableMoves b /\ j <> i).
  { intros j. rewrite !elem_of_getAvailableMoves.
    by apply empty_at_after_move. }
  split; [exact Hmem|].
  set (after := getAvailableMoves (array_set (spread b) i (JStr m))) in *.
  assert (Hperm : getAvailableMoves b ≡ₚ i :: after).
  { apply NoDup_Permutation.
    - apply sorted_lt_NoDup. rewrite getAvailableMoves_empties.
      apply empties_from_sorted.
    - apply NoDup_cons. split.
      + intros Hin. apply Hmem in Hin as [_ Hne]. done.
      + apply sorted_lt_NoDup. unfold after.
        rewrite getAvailableMoves_empties. apply empties_from_sorted.
    - intros j. rewrite elem_of_cons, Hmem. split.
      + intros Hj. destruct (decide (j = i)); [by left|by right].
      + intros [->|[? _]]; [|done]. by apply elem_of_getAvailableMoves. }
  by rewrite Hperm.
Qed.

Lemma getAvailableMoves_after_move_witness :
  empty_at getInitialBoard 4 /\
  length (getAvailableMoves getInitialBoard) =
  S (length (getAvailableMoves (array_set (spread getInitialBoard) 4 (JStr X)))).
Proof.
  split; [reflexivity|].
  exact (proj2 (getAvailableMoves_after_move getInitialBoard 4 X eq_refl)).
Defined.

Lemma scan_lines_none_inv (b : Board) ls :
  scan_lines b ls = None -> forall l m, l ∈ ls -> ~ completed b l m.
Proof.
  induction ls as [|[[i j] k] ls IH]; intros Hs l m Hin.
  { by apply elem_of_nil in Hin. }
  cbn [scan_lines] in Hs.
  assert (Hcase : (forall m', ~ completed b (i, j, k) m') /\
                  scan_lines b ls = None).
  { destruct (get b i) as [| |m0] eqn:Hi.
    - split; [|done]. intros m' (H & _). congruence.
    - split; [|done]. intros m' (H & _). congruence.
    - destruct (strict_eq (JStr m0) (get b j) && strict_eq (JStr m0) (get b k))
        eqn:Ht; [discriminate|].
      split; [|done]. intros m' Hc.
      pose proof (completed_first _ _ _ _ _ Hc) as Hi'.
      assert (m' = m0) as -> by congruence.
      apply (line_test b i j k m0 Hi) in Hc. rewrite Hi in Hc. congruence. }
  destruct Hcase as [Hh Ht].
  apply elem_of_cons in Hin as [->|Hin]; [apply Hh|by apply IH].
Qed.

Lemma not_every_truthy_empty (b : Board) :
  Forall wf_slot b -> every_truthy b = false -> exists i, empty_at b i.
Proof.
  induction 1 as [|s b Hs Hb IH]; cbn; [discriminate|].
  destruct s as [[| |m]|]; try done; cbn.
  - intros _. by exists 0.
  - intros H. destruct (IH H) as [i Hi]. by exists (S i).
Qed.

(** X3: what each result of [checkWinner] tells about a game board: a
    mark is returned only if that mark completes a line; ["draw"] only
    if no line is completed and no cell is empty; [null] only if no
    line is completed and some cell is empty. *)
Theorem checkWinner_sound (b : Board) :
  wf_board b ->
  match checkWinner b with
  | Won m => exists l, l ∈ lines /\ completed b l m
  | DrawGame =>
      (forall l m, l ∈ lines -> ~ completed b l m) /\ forall i, ~ empty_at b i
  | NoResult =>
      (forall l m, l ∈ lines -> ~ completed b l m) /\ exists i, empty_at b i
  end.
Proof.
  intros [_ Hb]. unfold checkWinner.
  destruct (scan_lines b lines) as [m|] eqn:E.
  { by apply scan_lines_some. }
  pose proof (scan_lines_none_inv b lines E) as Hno.
  destruct (every_truthy b) eqn:Ev.
  - split; [exact Hno|]. by apply every_truthy_iff.
  - split; [exact Hno|]. by apply not_every_truthy_empty.
Qed.

Lemma checkWinner_sound_witness :
  wf_board scenario_board /\
  (forall l m, l ∈ lines -> ~ completed scenario_board l m) /\
  exists i, empty_at scenario_board i.
Proof.
  split; [exact scenario_board_wf|].
  exact (checkWinner_sound scenario_board scenario_board_wf).
Defined.

Ltac in_list := apply list_elem_of_In; cbn; tauto.

Lemma occupied_not_loose_null (b : Board) i :
  wf_board b -> i < 9 -> ~ empty_at b i -> loose_null (get b i) = false.
Proof.
  intros Hwf Hi Hn. destruct (wf_board_cell b i Hwf Hi) as [He|[m Hm]]; [done|].
  unfold get. by rewrite Hm.
Qed.

(** The corners [computerMove] keeps are the empty ones. *)
Lemma elem_of_free_corners (b : Board) c :
  wf_board b ->
  c ∈ List.filter (fun i => loose_null (get b i)) [0; 2; 6; 8] <->
  c ∈ corners /\ empty_at b c.
Proof.
  intros Hwf. rewrite list_elem_of_In, filter_In, <- list_elem_of_In.
  unfold corners. split; intros [Hc He]; (split; [done|]).
  - apply loose_null_empty; [done| |done].
    repeat (apply elem_of_cons in Hc as [->|Hc]; [lia|]).
    by apply elem_of_nil in Hc.
  - by rewrite (empty_at_get b c He).
Qed.

Lemma no_free_corner (b : Board) :
  wf_board b ->
  (forall c, c ∈ corners -> ~ empty_at b c) ->
  List.filter (fun i => loose_null (get b i)) [0; 2; 6; 8] = [].
Proof.
  intros Hwf Hno. cbn [List.filter].
  rewrite !occupied_not_loose_null; try done; try lia;
    apply Hno; unfold corners; in_list.
Qed.

(** With no winning cell for either mark, the two search loops return
    nothing and the three fall-back rules decide. *)
Lemma computerMove_fallback (seed : nat) (b : Board) (aiMark humanMark : Mark) :
  wf_board b -> no_win b aiMark -> no_win b humanMark ->
  computerMove seed b aiMark humanMark =
  if loose_null (get b 4) then Some 4
  else
    let cs := List.filter (fun i => loose_null (get b i)) [0; 2; 6; 8] in
    if decide (0 < length cs) then cs !! random_index seed (length cs)
    else
      let available := getAvailableMoves b in
      if decide (length available = 0) then None
      else available !! random_index seed (length available).
Proof.
  intros Hwf Ha Hh. unfold computerMove.
  by rewrite (try_moves_fails b aiMark Hwf Ha),
             (try_moves_fails b humanMark Hwf Hh).
Qed.

Lemma edge_of_rest (i : nat) :
  i < 9 -> i <> 4 -> i ∉ corners -> i ∈ edges.
Proof.
  intros Hi H4 Hc. unfold corners, edges in *.
  do 9 (destruct i as [|i];
         [first [in_list | exfalso; apply Hc; in_list | done]|]).
  lia.
Qed.

(** X4: on a game board where neither mark can win at once,
    [computerMove] takes the centre if it is empty; otherwise an empty
    corner if there is one; otherwise an empty cell among the edges
    1, 3, 5, 7. *)
Theorem computerMove_fallback_order (seed : nat) (b : Board) (aiMark humanMark : Mark) :
  wf_board b -> no_win b aiMark -> no_win b humanMark ->
  (empty_at b 4 -> computerMove seed b aiMark humanMark = Some 4) /\
  (~ empty_at b 4 ->
   (exists c, c ∈ corners /\ empty_at b c) ->
   exists c, computerMove seed b aiMark humanMark = Some c /\
             c ∈ corners /\ empty_at b c) /\
  (~ empty_at b 4 ->
   (forall c, c ∈ corners -> ~ empty_at b c) ->
   (exists i, empty_at b i) ->
   exists i, computerMove seed b aiMark humanMark = Some i /\
             i ∈ edges /\ empty_at b i).
Proof.
  intros Hwf Ha Hh. rewrite (computerMove_fallback seed b _ _ Hwf Ha Hh).
  split; [|split].
  - intros H4. by rewrite (empty_at_get b 4 H4).
  - intros H4 (c & Hc & He).
    rewrite (occupied_not_loose_null b 4 Hwf) by (lia || done). cbv zeta.
    assert (Hin : c ∈ List.filter (fun i => loose_null (get b i)) [0; 2; 6; 8]).
    { by apply elem_of_free_corners. }
    case_decide as Hlen.
    + destruct (random_pick _ seed Hlen) as (x & Hx & Hxin).
      exists x. split; [done|]. by apply elem_of_free_corners.
    + exfalso. apply list_elem_of_lookup_1 in Hin as [k Hk].
      apply lookup_lt_Some in Hk. lia.
  - intros H4 Hno (i & Hi).
    rewrite (occupied_not_loose_null b 4 Hwf) by (lia || done). cbv zeta.
    rewrite (no_free_corner b Hwf Hno). cbn [length].
    case_decide as H0; [lia|].
    assert (Hin : i ∈ getAvailableMoves b) by (by apply elem_of_getAvailableMoves).
    case_decide as Hlen.
    { apply length_zero_iff_nil in Hlen. rewrite Hlen in Hin.
      by apply elem_of_nil in Hin. }
    assert (Hpos : 0 < length (getAvailableMoves b)) by lia.
    destruct (random_pick _ seed Hpos) as (x & Hx & Hxin).
    apply elem_of_getAvailableMoves in Hxin.
    exists x. split; [done|]. split; [|done].
    apply edge_of_rest.
    + pose proof (empty_at_lt _ _ Hxin). destruct Hwf as [Hl _]. lia.
    + intros ->. done.
    + intros Hc. by apply (Hno x).
Qed.

Lemma corner_board_wf : wf_board corner_board.
Proof. split; [reflexivity|]. repeat constructor. Qed.

Lemma corner_board_no_win (m : Mark) : no_win corner_board m.
Proof.
  intros i [He Hw]. pose proof (empty_at_lt _ _ He) as Hlt. simpl in Hlt.
  destruct m;
    do 9 (destruct i as [|i];
          [first [discriminate He | vm_compute in Hw; discriminate]|]); lia.
Qed.

Lemma computerMove_fallback_order_witness :
  wf_board corner_board /\ no_win corner_board O /\ no_win corner_board X /\
  ~ empty_at corner_board 4 /\
  (exists c, c ∈ corners /\ empty_at corner_board c) /\
  exists c, computerMove 5 corner_board O X = Some c /\
            c ∈ corners /\ empty_at corner_board c.
Proof.
  assert (H4 : ~ empty_at corner_board 4) by discriminate.
  assert (Hex : exists c, c ∈ corners /\ empty_at corner_board c).
  { exists 0. split; [by left|reflexivity]. }
  split; [exact corner_board_wf|].
  split; [exact (corner_board_no_win O)|].
  split; [exact (corner_board_no_win X)|].
  split; [exact H4|]. split; [exact Hex|].
  exact (proj1 (proj2 (computerMove_fallback_order 5 corner_board O X
                         corner_board_wf (corner_board_no_win O)
                         (corner_board_no_win X))) H4 Hex).
Defined.

(** X5: the random draw matters only in the corner and the any-cell
    rules: when some cell wins at once for either mark, or the centre
    is empty, [computerMove] returns the same index for every draw. *)
Theorem computerMove_draw_irrelevant (seed seed' : nat) (b : Board)
  (aiMark humanMark : Mark) :
  wf_board b ->
  (exists i, wins_at b aiMark i) \/ (exists i, wins_at b humanMark i) \/
  empty_at b 4 ->
  computerMove seed b aiMark humanMark = computerMove seed' b aiMark humanMark.
Proof.
  intros Hwf Hc. unfold computerMove.
  destruct (try_moves b aiMark (getAvailableMoves b)) as [i1|] eqn:E1;
    [reflexivity|].
  destruct (try_moves b humanMark (getAvailableMoves b)) as [i2|] eqn:E2;
    [reflexivity|].
  destruct Hc as [Hex|[Hex|H4]].
  - destruct (try_moves_finds b aiMark Hwf Hex) as [i Hi]. congruence.
  - destruct (try_moves_finds b humanMark Hwf Hex) as [i Hi]. congruence.
  - by rewrite (empty_at_get b 4 H4).
Qed.

Lemma computerMove_draw_irrelevant_witness :
  wf_board threat_board /\
  ((exists i, wins_at threat_board O i) \/ (exists i, wins_at threat_board X i) \/
   empty_at threat_board 4) /\
  computerMove 1 threat_board O X = computerMove 8 threat_board O X.
Proof.
  assert (Hc : (exists i, wins_at threat_board O i) \/
               (exists i, wins_at threat_board X i) \/
               empty_at threat_board 4).
  { right. left. exists 2. split; reflexivity. }
  split; [exact threat_board_wf|]. split; [exact Hc|].
  exact (computerMove_draw_irrelevant 1 8 threat_board O X threat_board_wf Hc).
Defined.

Lemma pick_by_seed (l : list nat) c :
  c ∈ l -> exists seed, l !! random_index seed (length l) = Some c.
Proof.
  intros Hin. apply list_elem_of_lookup_1 in Hin as [k Hk].
  exists k. rewrite random_index_any; [done|]. by apply lookup_lt_Some in Hk.
Qed.

(** X6: in the two random rules every candidate can be drawn: with no
    winning cell for either mark and the centre taken, each empty corner
    is returned for some draw, and, when no corner is empty, so is each
    empty cell. *)
Theorem computerMove_any_candidate (b : Board) (aiMark humanMark : Mark) (c : nat) :
  wf_board b -> no_win b aiMark -> no_win b humanMark ->
  ~ empty_at b 4 ->
  empty_at b c ->
  c ∈ corners \/ (forall c', c' ∈ corners -> ~ empty_at b c') ->
  exists seed, computerMove seed b aiMark humanMark = Some c.
Proof.
  intros Hwf Ha Hh H4 Hc Hkind.
  assert (Hrule : forall seed,
    computerMove seed b aiMark humanMark =
    let cs := List.filter (fun i => loose_null (get b i)) [0; 2; 6; 8] in
    if decide (0 < length cs) then cs !! random_index seed (length cs)
    else
      let available := getAvailableMoves b in
      if decide (length available = 0) then None
      else available !! random_index seed (length available)).
  { intros seed. rewrite (computerMove_fallback seed b _ _ Hwf Ha Hh).
    by rewrite (occupied_not_loose_null b 4 Hwf) by (lia || done). }
  destruct Hkind as [Hcorner|Hno].
  - assert (Hin : c ∈ List.filter (fun i => loose_null (get b i)) [0; 2; 6; 8]).
    { by apply elem_of_free_corners. }
    destruct (pick_by_seed _ c Hin) as [seed Hseed].
    exists seed. rewrite Hrule. cbv zeta. case_decide as Hlen; [done|].
    apply lookup_lt_Some in Hseed. lia.
  - assert (Hin : c ∈ getAvailableMoves b) by (by apply elem_of_getAvailableMoves).
    destruct (pick_by_seed _ c Hin) as [seed Hseed].
    exists seed. rewrite Hrule. cbv zeta.
    rewrite (no_free_corner b Hwf Hno). cbn [length].
    case_decide as H0; [lia|].
    case_decide as Hlen; [|done].
    apply lookup_lt_Some in Hseed. lia.
Qed.

Lemma computerMove_any_candidate_witness :
  wf_board corner_board /\ no_win corner_board O /\ no_win corner_board X /\
  ~ empty_at corner_board 4 /\ empty_at corner_board 8 /\
  (8 ∈ corners \/ (forall c', c' ∈ corners -> ~ empty_at corner_board c')) /\
  exists seed, computerMove seed corner_board O X = Some 8.
Proof.
  assert (H4 : ~ empty_at corner_board 4) by discriminate.
  assert (H8 : empty_at corner_board 8) by reflexivity.
  assert (Hk : 8 ∈ corners \/
               (forall c', c' ∈ corners -> ~ empty_at corner_board c')).
  { left. unfold corners. in_list. }
  split; [exact corner_board_wf|].
  split; [exact (corner_board_no_win O)|].
  split; [exact (corner_board_no_win X)|].
  split; [exact H4|]. split; [exact H8|]. split; [exact Hk|].
  exact (computerMove_any_candidate corner_board O X 8 corner_board_wf
           (corner_board_no_win O) (corner_board_no_win X) H4 H8 Hk).
Defined.

End EngineMore.

(** ** Further facts on the running component *)

Module SessionMore.
Import Engine Controller Runtime Props Scenarios View Conduct.
Import EngineFacts ComputerMove RuntimeFacts Session Deferred EngineMore.

(** A click, with the reason of its rejection or the state it commits. *)
Lemma step_click_full (w : World) idx :
  ((gameActive (st w) = false \/ truthy (get (board (st w)) idx) = true \/
    (mode (st w) = SINGLE /\ isXTurn (st w) = false)) /\
   step w (Click idx) = Some w) \/
  (gameActive (st w) = true /\ truthy (get (board (st w)) idx) = false /\
   (mode (st w) = SINGLE -> isXTurn (st w) = true) /\
   step w (Click idx) =
     Some (settled
             (mkState (mode (st w))
                (array_set (spread (board (st w))) idx
                   (JStr (activeMark (st w))))
                (negb (isXTurn (st w))) (winner (st w))
                (gameActive (st w))))).
Proof.
  assert (Hnil : handleCellClick (st w) idx = [] -> step w (Click idx) = Some w).
  { intros H. cbn [step]. rewrite H. unfold render_budget.
    by rewrite commit_nil, world_eta. }
  destruct (gameActive (st w)) eqn:Hg.
  2:{ left. split; [by left|]. apply Hnil. unfold handleCellClick, makeMove.
      rewrite Hg. cbn.
      by destruct (mode (st w)), (isXTurn (st w)),
           (loose_null (get (board (st w)) idx)). }
  destruct (truthy (get (board (st w)) idx)) eqn:Ht.
  { left. split; [right; by left|]. apply Hnil. unfold handleCellClick, makeMove.
    rewrite Hg, Ht. cbn.
    by destruct (mode (st w)), (isXTurn (st w)),
         (loose_null (get (board (st w)) idx)). }
  assert (Hl : loose_null (get (board (st w)) idx) = true).
  { by destruct (get (board (st w)) idx). }
  assert (Hmk : makeMove (st w) idx <> []).
  { unfold makeMove. by rewrite Hg, Ht. }
  destruct (mode (st w)) eqn:Hm, (isXTurn (st w)) eqn:Hx.
  - right. split; [done|]. split; [done|]. split; [done|].
    cbn [step]. unfold handleCellClick. rewrite Hm, Hx, Hl. cbn [negb orb].
    rewrite (commit_move (st w) (st w) idx (pending w) Hmk).
    rewrite ?Hm, ?Hx, ?Hg. reflexivity.
  - left. split; [right; right; done|]. apply Hnil.
    unfold handleCellClick. by rewrite Hm, Hx.
  - right. split; [done|]. split; [done|]. split; [done|].
    cbn [step]. unfold handleCellClick. rewrite Hm, Hl. cbn [negb].
    rewrite (commit_move (st w) (st w) idx (pending w) Hmk).
    rewrite ?Hm, ?Hx, ?Hg. reflexivity.
  - right. split; [done|]. split; [done|]. split; [done|].
    cbn [step]. unfold handleCellClick. rewrite Hm, Hl. cbn [negb].
    rewrite (commit_move (st w) (st w) idx (pending w) Hmk).
    rewrite ?Hm, ?Hx, ?Hg. reflexivity.
Qed.

Lemma run_invariant (P : World -> Prop) :
  (forall w e w', P w -> step w e = Some w' -> P w') ->
  forall es w w', P w -> run w es = Some w' -> P w'.
Proof.
  intros Hstep es. induction es as [|e es IH]; intros w w' Hw; cbn [run].
  - by intros [= <-].
  - destruct (step w e) as [w1|] eqn:E; [|discriminate].
    apply IH. by apply (Hstep w e w1).
Qed.

Lemma settled_consistent (s : State) : consistent (st (settled s)).
Proof. rewrite settled_st. by split. Qed.

Lemma freshState_consistent (m : Mode) : consistent (freshState m).
Proof. by split. Qed.

Lemma step_consistent (w w' : World) e :
  consistent (st w) -> step w e = Some w' -> consistent (st w').
Proof.
  intros Hw. destruct e as [idx| |m|seed].
  - destruct (step_click w idx) as [H|[_ H]]; rewrite H; intros [= <-];
      [done|apply settled_consistent].
  - cbn [step]. rewrite commit_restart. intros [= <-]. apply freshState_consistent.
  - destruct (step_mode w m) as [[_ H]|[_ H]]; rewrite H; intros [= <-];
      [done|apply freshState_consistent].
  - destruct (step_fire w seed) as [[_ H]|(r & _ & [H|(idx & _ & _ & H)])];
      rewrite H; intros [= <-]; [done|done|apply settled_consistent].
Qed.

Lemma reachable_consistent (w : World) : world_reachable w -> consistent (st w).
Proof.
  intros [es Hes].
  apply (run_invariant (fun w => consistent (st w))
           (fun w e w' => step_consistent w w' e) es initialWorld w);
    [by split|done].
Qed.

Lemma finished_world_reachable : world_reachable finished_run.
Proof.
  exists [ChangeMode TWO; Click 0; Click 3; Click 1; Click 4; Click 2].
  reflexivity.
Qed.

(** X7: whenever the component is at rest between two events (the
    renders and effects of the previous event done), the stored
    [winner] is [checkWinner] of the stored board, and [gameActive] is
    true if that result is [null] and false if it is a mark or a draw.
    (The render between a move and its effect still carries the older
    [winner]; it is not a world of [run].) *)
Theorem result_follows_board (w : World) :
  world_reachable w ->
  winner (st w) = checkWinner (board (st w)) /\
  gameActive (st w) =
    match checkWinner (board (st w)) with
    | NoResult => true
    | Won _ => false
    | DrawGame => false
    end.
Proof.
  intros Hr. destruct (reachable_consistent w Hr) as [Hw Hg].
  split; [exact Hw|]. rewrite Hg, Hw. by destruct (checkWinner _).
Qed.

Lemma result_follows_board_witness :
  world_reachable finished_run /\
  winner (st finished_run) = Won X /\
  checkWinner (board (st finished_run)) = Won X /\
  gameActive (st finished_run) = false.
Proof.
  split; [exact finished_world_reachable|].
  pose proof (result_follows_board finished_run finished_world_reachable)
    as [Hw Hg].
  split; [reflexivity|]. split; [by rewrite <- Hw|].
  rewrite Hg, <- Hw. reflexivity.
Defined.

(** X8: selecting another mode resets the game in that mode (empty
    board, X to move, no result, active, no timer pending), whatever
    the session was; selecting the current mode changes nothing. *)
Theorem mode_change_resets (w : World) (m : Mode) :
  step w (ChangeMode m) =
  Some (if decide (m = mode (st w)) then w
        else mkWorld
               (mkState m (replicate 9 (Some JNull)) true NoResult true) None).
Proof.
  cbn [step]. destruct (decide (m = mode (st w))) as [->|Hne].
  - by rewrite commit_same_mode, world_eta.
  - by apply commit_new_mode.
Qed.

(** X9: a move never overwrites a mark: after a click or the firing of
    the timer, every cell that held a mark holds the same mark. *)
Theorem moves_never_overwrite (w w' : World) (e : Event) :
  world_reachable w ->
  is_move e = true ->
  step w e = Some w' ->
  forall j m, get (board (st w)) j = JStr m -> get (board (st w')) j = JStr m.
Proof.
  intros Hr He Hstep j m Hj.
  assert (Hput : forall idx mk,
            truthy (get (board (st w)) idx) = false ->
            get (array_set (spread (board (st w))) idx mk) j = JStr m).
  { intros idx mk Hfree. rewrite get_array_set_ne, get_spread; [done|].
    intros ->. rewrite Hj in Hfree. discriminate. }
  destruct e as [idx| |md|seed]; try discriminate.
  - destruct (step_click w idx) as [H|[Hfree H]]; rewrite H in Hstep;
      injection Hstep as <-; [done|].
    rewrite settled_st. cbn [board]. by apply Hput.
  - destruct (step_fire w seed) as [[_ H]|(r & Hp & [H|(idx & _ & Hn & H)])];
      rewrite H in Hstep; injection Hstep as <-; [done|done|].
    destruct (reachable_fresh w Hr r Hp) as (Hb & _).
    rewrite settled_st. cbn [board]. rewrite Hb in *. apply Hput.
    by destruct (get (board (st w)) idx).
Qed.

Lemma moves_never_overwrite_witness :
  world_reachable waiting_world /\
  is_move (Fire 3) = true /\
  exists w', step waiting_world (Fire 3) = Some w' /\
    forall j m, get (board (st waiting_world)) j = JStr m ->
                get (board (st w')) j = JStr m.
Proof.
  split; [exact waiting_world_reachable|]. split; [reflexivity|].
  eexists. split; [reflexivity|].
  exact (moves_never_overwrite waiting_world _ (Fire 3)
           waiting_world_reachable eq_refl eq_refl).
Defined.

(** X10: once the game has a result, no timer is pending, and clicks
    and timer firings leave the whole session as it is: only a restart
    or a change of mode leaves a finished game. *)
Theorem finished_game_frozen (w : World) :
  world_reachable w ->
  winner (st w) <> NoResult ->
  pending w = None /\
  forall e, is_move e = true -> step w e = Some w.
Proof.
  intros Hr Hend. destruct (reachable_consistent w Hr) as [Hw Hg].
  assert (Hp : pending w = None).
  { destruct (pending w) as [r|] eqn:Hp; [|reflexivity]. exfalso.
    destruct (reachable_fresh w Hr r Hp) as (Hb & _ & _ & (_ & _ & Hc)).
    apply Hend. by rewrite Hw, <- Hb. }
  split; [exact Hp|].
  intros [idx| |md|seed] He; try discriminate.
  - destruct (step_click_full w idx) as [[_ H]|(Ha & _)]; [done|].
    exfalso. rewrite Hg in Ha. by destruct (winner (st w)).
  - cbn [step]. by rewrite Hp.
Qed.

Lemma finished_game_frozen_witness :
  world_reachable finished_run /\
  winner (st finished_run) <> NoResult /\
  pending finished_run = None /\
  step finished_run (Click 8) = Some finished_run.
Proof.
  assert (Hend : winner (st finished_run) <> NoResult) by discriminate.
  split; [exact finished_world_reachable|]. split; [exact Hend|].
  pose proof (finished_game_frozen finished_run finished_world_reachable Hend)
    as [Hp Hm].
  split; [exact Hp|]. exact (Hm (Click 8) eq_refl).
Defined.



Lemma all_null_no_mark (m : Mark) (b : Board) :
  forallb (fun s : slot =>
             match s with None => true | Some v => loose_null v end) b = true ->
  count_mark m b = 0.
Proof.
  induction b as [|x b IH]; [reflexivity|]. cbn [forallb].
  rewrite andb_true_iff, count_mark_cons. intros [Hx Hb]. rewrite (IH Hb).
  rewrite bool_decide_false; [reflexivity|]. intros ->. discriminate.
Qed.

(** X12: while a move of the computer is pending the mode selector is
    disabled: [canSwitchMode] is false. *)
Theorem selector_locked_while_pending (w : World) :
  world_reachable w ->
  pending w <> None ->
  canSwitchMode (st w) = false.
Proof.
  intros Hr Hp. destruct (pending w) as [r|] eqn:Er; [clear Hp|done].
  destruct (reachable_fresh w Hr r Er) as (Hb & Hx & _ & (_ & Hxr & Hc)).
  destruct (reachable_consistent w Hr) as [Hw _].
  pose proof (world_marks_balanced w Hr) as Hbal. unfold balanced in Hbal.
  rewrite <- Hx, Hxr in Hbal.
  unfold canSwitchMode, gameOver. rewrite Hw, <- Hb, Hc. cbn [is_null negb].
  rewrite orb_false_r.
  destruct (forallb _ (board r)) eqn:E; [|reflexivity].
  rewrite Hb in E. apply (all_null_no_mark X) in E. lia.
Qed.

Lemma selector_locked_while_pending_witness :
  world_reachable waiting_world /\
  pending waiting_world <> None /\
  canSwitchMode (st waiting_world) = false.
Proof.
  assert (Hp : pending waiting_world <> None) by discriminate.
  split; [exact waiting_world_reachable|]. split; [exact Hp|].
  exact (selector_locked_while_pending waiting_world waiting_world_reachable Hp).
Defined.

Lemma message_nonempty (o : outcome) (cp : string) : message o (is_null o) cp <> "".
Proof. destruct o as [|[|]|]; discriminate. Qed.

(** X13: whenever the component is at rest between two events, the
    panel's message tells the state of the board: the draw text when
    [checkWinner] of the board is ["draw"]; the winner text with "X" or
    "O" when it is that mark; otherwise the turn text, with "You (X)" or
    "Computer (O)" in single-player mode and "Player X" or "Player O" in
    two-player mode, by the turn.  It is never blank. *)
Theorem announcement_tells_board (w : World) :
  world_reachable w ->
  announcement (st w) <> "" /\
  announcement (st w) =
  match checkWinner (board (st w)) with
  | DrawGame => "It's a Draw! 😮"
  | Won X => "Winner: X 🎉"
  | Won O => "Winner: O 🎉"
  | NoResult =>
      match mode (st w), isXTurn (st w) with
      | SINGLE, true => "Turn: You (X)"
      | SINGLE, false => "Turn: Computer (O)"
      | TWO, true => "Turn: Player X"
      | TWO, false => "Turn: Player O"
      end
  end.
Proof.
  intros Hr. destruct (reachable_consistent w Hr) as [Hw _].
  unfold announcement, showTurn, currentPlayer.
  split; [apply message_nonempty|].
  rewrite Hw.
  by destruct (checkWinner (board (st w))) as [|[|]|],
              (mode (st w)), (isXTurn (st w)).
Qed.

Lemma announcement_tells_board_witness :
  (world_reachable waiting_world /\
   announcement (st waiting_world) = "Turn: Computer (O)") /\
  (world_reachable finished_run /\
   announcement (st finished_run) = "Winner: X 🎉").
Proof.
  split.
  - split; [exact waiting_world_reachable|].
    exact (proj2 (announcement_tells_board waiting_world
                    waiting_world_reachable)).
  - split; [exact finished_world_reachable|].
    exact (proj2 (announcement_tells_board finished_run
                    finished_world_reachable)).
Defined.

End SessionMore.

(** ** The session as the page drives it *)

Module PageSession.
Import Engine Controller Runtime Props Scenarios View Conduct.
Import EngineFacts ComputerMove RuntimeFacts Session Deferred EngineMore.
Import SessionMore.

Lemma ui_run_invariant (P : World -> Prop) :
  (forall w e w', P w -> ui_enabled (st w) e = true -> step w e = Some w' -> P w') ->
  forall es w w', P w -> ui_run w es = Some w' -> P w'.
Proof.
  intros Hstep es. induction es as [|e es IH]; intros w w' Hw; cbn [ui_run].
  - by intros [= <-].
  - destruct (ui_enabled (st w) e) eqn:En; [|discriminate].
    destruct (step w e) as [w1|] eqn:E; [|discriminate].
    apply IH. by apply (Hstep w e w1).
Qed.

Lemma ui_run_run (es : list Event) (w w' : World) :
  ui_run w es = Some w' -> run w es = Some w'.
Proof.
  revert w. induction es as [|e es IH]; intros w; cbn [ui_run run]; [done|].
  destruct (ui_enabled (st w) e); [|discriminate].
  destruct (step w e) as [w1|]; [apply IH|discriminate].
Qed.

Lemma ui_world_reachable (w : World) : ui_reachable w -> world_reachable w.
Proof. intros [es Hes]. exists es. by apply ui_run_run. Qed.

Lemma wf_place (b : Board) i (m : Mark) : wf_board b -> wf_board (place b i m).
Proof.
  intros [Hl Hb]. unfold place. split; [by rewrite length_insert|].
  by apply Forall_insert.
Qed.

Lemma in_progress_has_empty (b : Board) :
  wf_board b -> checkWinner b = NoResult -> exists i, empty_at b i.
Proof.
  intros [_ Hb]. unfold checkWinner.
  destruct (scan_lines b lines); [discriminate|].
  destruct (every_truthy b) eqn:E; [discriminate|].
  intros _. by apply not_every_truthy_empty.
Qed.

Lemma settled_arms (s : State) :
  expects_computer s -> pending (settled s) = Some s.
Proof.
  intros (Hm & Hx & Hc). unfold settled, boardEffect. cbn [snd pending].
  by rewrite Hm, Hx, Hc.
Qed.

Lemma settled_unarmed (s : State) :
  isXTurn s = true -> pending (settled s) = None.
Proof.
  intros Hx. unfold settled, boardEffect. cbn [snd pending].
  rewrite Hx. cbn. by rewrite andb_false_r.
Qed.

(** On a game board, a pending timer always plays: the firing writes O
    on the empty cell that [computerMove] returns. *)
Lemma fire_applies (w : World) r seed :
  wf_board (board (st w)) -> timer_fresh w -> timer_live w ->
  pending w = Some r ->
  exists idx,
    computerMove seed (board (st w)) O X = Some idx /\
    empty_at (board (st w)) idx /\
    step w (Fire seed) =
      Some (settled
              (mkState (mode (st w)) (place (board (st w)) idx O) true
                 (winner (st w)) (gameActive (st w)))).
Proof.
  intros Hwf Hfresh Hlive Hp.
  destruct (Hfresh r Hp) as (Hb & Hx & Hm & (Hs & Hxr & Hc)).
  pose proof (Hlive r Hp) as Hga.
  rewrite Hb in Hc.
  destruct (in_progress_has_empty _ Hwf Hc) as [i Hi].
  destruct (computerMove seed (board (st w)) O X) as [idx|] eqn:E.
  2:{ exfalso. by apply (computerMove_none_full seed _ O X Hwf E i). }
  pose proof (computerMove_some_empty seed _ O X idx Hwf E) as He.
  exists idx. split; [reflexivity|]. split; [exact He|].
  pose proof (empty_at_get _ _ He) as Hget.
  assert (Hmk : makeMove r idx <> []).
  { unfold makeMove. by rewrite Hga, Hb, Hget. }
  cbn [step]. rewrite Hp. unfold aiCallback. rewrite Hb, E, Hget. cbn [loose_null].
  rewrite (commit_move r (st w) idx None Hmk).
  unfold activeMark. rewrite Hxr, Hb, <- Hx, Hxr. cbn [negb].
  rewrite copy_is_place; [reflexivity|by destruct Hwf|by apply empty_at_lt].
Qed.

Lemma settled_page (s : State) :
  wf_board (board s) -> gameActive s = true -> page_invariant (settled s).
Proof.
  intros Hwf Hga. split; [by rewrite settled_st|].
  split; [apply settled_consistent|]. split; [apply settled_fresh|].
  split.
  - intros r Hr. by apply settled_pending in Hr as [-> _].
  - intros He. rewrite settled_arms; [done|].
    rewrite settled_st in He. exact He.
Qed.

Lemma fresh_page (m : Mode) : page_invariant (mkWorld (freshState m) None).
Proof.
  split; [split; [reflexivity|repeat constructor]|].
  split; [apply freshState_consistent|]. split; [apply no_timer_fresh|].
  split; [intros r Hr; discriminate|].
  intros (_ & Hx & _). discriminate.
Qed.

Lemma step_page (w : World) e w' :
  page_invariant w -> ui_enabled (st w) e = true -> step w e = Some w' ->
  page_invariant w'.
Proof.
  intros Hinv En. pose proof Hinv as (Hwf & Hcons & Hfresh & Hlive & Hwait).
  destruct e as [idx| |m|seed].
  - destruct (step_click_full w idx) as [[_ H]|(Ha & Hfree & _ & H)];
      rewrite H; intros [= <-]; [done|].
    apply settled_page; [|done]. cbn [board].
    cbn [ui_enabled] in En. apply andb_true_iff in En as [Hren _].
    unfold buttonRendered in Hren.
    destruct (board (st w) !! idx) as [[v|]|] eqn:Hl; try discriminate.
    rewrite copy_is_place;
      [by apply wf_place|by destruct Hwf|by apply lookup_lt_Some in Hl].
  - cbn [step]. rewrite commit_restart. intros [= <-]. apply fresh_page.
  - destruct (step_mode w m) as [[_ H]|[_ H]]; rewrite H; intros [= <-];
      [done|apply fresh_page].
  - destruct (pending w) as [r|] eqn:Hp.
    2:{ cbn [step]. rewrite Hp. by intros [= <-]. }
    destruct (fire_applies w r seed Hwf Hfresh Hlive Hp) as (idx & _ & _ & H).
    rewrite H. intros [= <-].
    apply settled_page; cbn [board gameActive]; [by apply wf_place|].
    destruct (Hfresh r Hp) as (Hb & _ & _ & (_ & _ & Hc)).
    destruct Hcons as [Hw Hg]. by rewrite Hg, Hw, <- Hb, Hc.
Qed.

Lemma page_reachable (w : World) : ui_reachable w -> page_invariant w.
Proof.
  intros [es Hes].
  apply (ui_run_invariant page_invariant step_page es initialWorld w);
    [|done].
  apply (fresh_page SINGLE).
Qed.

Lemma chance_world_reachable : ui_reachable chance_world.
Proof. exists [Click 0; Fire 0; Click 1; Fire 0; Click 3]. reflexivity. Qed.

(** X14: driven by the page (clicks on enabled buttons, the selector
    when enabled, the restart button, the timer), the board always has
    nine cells, each [null], ["X"] or ["O"]. *)
Theorem page_board_well_formed (w : World) :
  ui_reachable w -> wf_board (board (st w)).
Proof. intros Hr. by destruct (page_reachable w Hr) as (Hwf & _). Qed.

Lemma page_board_well_formed_witness :
  ui_reachable chance_world /\ wf_board (board (st chance_world)).
Proof.
  split; [exact chance_world_reachable|].
  exact (page_board_well_formed chance_world chance_world_reachable).
Defined.

(** X15: a pending move of the computer is always played: when the
    timer fires, [computerMove] on the current board, for O against X,
    returns an index; that cell was empty and O is written on it, it is
    X's turn again, and no timer is pending. *)
Theorem computer_always_replies (w : World) (seed : nat) :
  ui_reachable w ->
  pending w <> None ->
  exists idx w',
    computerMove seed (board (st w)) O X = Some idx /\
    step w (Fire seed) = Some w' /\
    empty_at (board (st w)) idx /\
    board (st w') = <[idx := Some (JStr O)]> (board (st w)) /\
    isXTurn (st w') = true /\
    pending w' = None.
Proof.
  intros Hr Hp. destruct (page_reachable w Hr) as (Hwf & _ & Hfresh & Hlive & _).
  destruct (pending w) as [r|] eqn:Er; [clear Hp|done].
  destruct (fire_applies w r seed Hwf Hfresh Hlive Er) as (idx & Hc & He & H).
  exists idx. eexists. split; [exact Hc|]. split; [exact H|].
  split; [exact He|].
  split; [by rewrite settled_st|]. split; [by rewrite settled_st|].
  by apply settled_unarmed.
Qed.

Lemma computer_always_replies_witness :
  ui_reachable chance_world /\
  pending chance_world <> None /\
  exists idx w',
    computerMove 2 (board (st chance_world)) O X = Some idx /\
    step chance_world (Fire 2) = Some w' /\
    empty_at (board (st chance_world)) idx /\
    board (st w') = <[idx := Some (JStr O)]> (board (st chance_world)) /\
    isXTurn (st w') = true /\
    pending w' = None.
Proof.
  assert (Hp : pending chance_world <> None) by discriminate.
  split; [exact chance_world_reachable|]. split; [exact Hp|].
  exact (computer_always_replies chance_world 2 chance_world_reachable Hp).
Defined.

(** X16: when its pending move fires, the computer wins if some empty
    cell completes a line of O: the result becomes O and the session
    inactive.  If no cell does but some empty cell would complete a
    line of X, O is written on the smallest such cell. *)
Theorem computer_wins_or_blocks (w : World) (seed : nat) :
  ui_reachable w ->
  pending w <> None ->
  ((exists i, wins_at (board (st w)) O i) ->
   exists w', step w (Fire seed) = Some w' /\
              winner (st w') = Won O /\ gameActive (st w') = false) /\
  (no_win (board (st w)) O ->
   (exists i, wins_at (board (st w)) X i) ->
   exists i w', least (wins_at (board (st w)) X) i /\
                step w (Fire seed) = Some w' /\
                board (st w') = place (board (st w)) i O).
Proof.
  intros Hr Hp. destruct (page_reachable w Hr) as (Hwf & _ & Hfresh & Hlive & _).
  destruct (pending w) as [r|] eqn:Er; [clear Hp|done].
  destruct (fire_applies w r seed Hwf Hfresh Hlive Er) as (idx & Hc & He & H).
  unfold computerMove in Hc. split.
  - intros Hex. destruct (try_moves_finds _ O Hwf Hex) as [i Hi].
    rewrite Hi in Hc. injection Hc as ->.
    apply (try_moves_least _ O idx Hwf) in Hi as [[_ Hwin] _].
    eexists. split; [exact H|]. rewrite settled_st. cbn [winner gameActive board].
    by rewrite Hwin.
  - intros Hno Hex. rewrite (try_moves_fails _ O Hwf Hno) in Hc.
    destruct (try_moves_finds _ X Hwf Hex) as [i Hi].
    rewrite Hi in Hc. injection Hc as ->.
    apply (try_moves_least _ X idx Hwf) in Hi.
    exists idx. eexists. split; [exact Hi|]. split; [exact H|].
    by rewrite settled_st.
Qed.

Lemma computer_wins_or_blocks_witness :
  ui_reachable chance_world /\
  pending chance_world <> None /\
  (exists i, wins_at (board (st chance_world)) O i) /\
  exists w', step chance_world (Fire 2) = Some w' /\
             winner (st w') = Won O /\ gameActive (st w') = false.
Proof.
  assert (Hp : pending chance_world <> None) by discriminate.
  assert (Hex : exists i, wins_at (board (st chance_world)) O i).
  { exists 6. split; reflexivity. }
  split; [exact chance_world_reachable|]. split; [exact Hp|].
  split; [exact Hex|].
  exact (proj1 (computer_wins_or_blocks chance_world 2
                  chance_world_reachable Hp) Hex).
Defined.

(** X17: in single-player mode the human is never left waiting for
    nothing: whenever it is O's turn and the game has no result, a
    move of the computer is pending. *)
Theorem computer_turn_is_pending (w : World) :
  ui_reachable w ->
  mode (st w) = SINGLE -> isXTurn (st w) = false -> winner (st w) = NoResult ->
  pending w <> None.
Proof.
  intros Hr Hm Hx Hw.
  destruct (page_reachable w Hr) as (_ & [Hcons _] & _ & _ & Hwait).
  apply Hwait. split; [done|]. split; [done|]. by rewrite <- Hcons.
Qed.

Lemma computer_turn_is_pending_witness :
  ui_reachable chance_world /\
  mode (st chance_world) = SINGLE /\ isXTurn (st chance_world) = false /\
  winner (st chance_world) = NoResult /\
  pending chance_world <> None.
Proof.
  split; [exact chance_world_reachable|].
  split; [reflexivity|]. split; [reflexivity|]. split; [reflexivity|].
  exact (computer_turn_is_pending chance_world chance_world_reachable
           eq_refl eq_refl eq_refl).
Defined.

(** X18: the balance of marks holds along every run of the component,
    the moves the timer callback makes from its older closure included:
    the board holds as many X as O when X is to move, and one X more
    when O is to move. *)
Theorem running_marks_balanced (w : World) :
  world_reachable w ->
  count_mark X (board (st w)) =
  count_mark O (board (st w)) + (if isXTurn (st w) then 0 else 1).
Proof. intros Hr. exact (world_marks_balanced w Hr). Qed.

Lemma running_marks_balanced_witness :
  world_reachable waiting_world /\
  count_mark X (board (st waiting_world)) =
  count_mark O (board (st waiting_world))
  + (if isXTurn (st waiting_world) then 0 else 1).
Proof.
  split; [exact waiting_world_reachable|].
  exact (running_marks_balanced waiting_world waiting_world_reachable).
Defined.

End PageSession.
